(** * ChatServer: the broadcast relay of [src/ws/main.py]

    A shallow embedding of [ChatServer.handler].  The client set
    [self.clients] is a finite set of connections; a statement is a
    function from worlds to a result and a world, so that what the code
    mutates and raises is explicit.  [handler] is given twice: as the
    coroutine run in one piece ([handler], [receive_loop], [fan_out]), and
    as a machine in which the handlers of all connections take turns
    ([step], [run]); [handler_alone] shows that the machine does what
    [handler] does when one handler runs alone.

    What is not source is taken from the libraries the code calls:
    - the [websockets] connection: [open] and [send] are modelled by a
      state per peer ([peer_state]); a [send] and its outcome are one step;
      messages are text frames ([str]); a binary frame, on which the
      concatenation of line 20 raises [TypeError], is outside the model;
    - Python's [set]: [add] is silent on a duplicate, [remove] raises
      [KeyError] on an absent element, and an iterator raises [RuntimeError]
      when the set's size has changed since the loop began;
    - asyncio: a handler can be suspended at an [await], and cancelled
      there; the server calls [handler] once per connection object.
    The [print] calls are left out. *)

From stdpp Require Import sorting functions.
From stdpp Require Import base decidable option list sets gmap strings.

Set Warnings "-clear-no-such-hyp".

Local Open Scope string_scope.
Local Open Scope list_scope.

(** ** Data *)

(** A connection is the websocket object the library hands to [handler];
    the code uses it only through identity ([==], set membership), [open]
    and [send]. *)
Abbreviation conn := nat.

(** The exceptions that occur in [handler] on text frames. *)
Inductive exn :=
  | ConnectionClosed   (* websockets.ConnectionClosed, from send or the receive *)
  | RuntimeError       (* "Set changed size during iteration" *)
  | KeyError           (* set.remove of an absent element *)
  | CancelledError.    (* asyncio cancels the task at an await *)

Global Instance exn_eq_dec : EqDecision exn.
Proof. solve_decision. Defined.

(** What the transport knows of a peer.  [Broken] is a peer that vanished
    without the [open] property having noticed yet: [open] still answers
    [True] and [send] raises [ConnectionClosed]. *)
Inductive peer_state := Open | Broken | Closed.

Global Instance peer_state_eq_dec : EqDecision peer_state.
Proof. solve_decision. Defined.

(** [client.open] *)
Definition client_open (p : peer_state) : bool :=
  match p with Closed => false | Open | Broken => true end.

(** One call of [client.send(text)]: the connection, the text, and whether
    the call went through ([false]: it raised). *)
Record send_call := SendCall {
  target : conn;
  text : string;
  delivered : bool
}.

Global Instance send_call_eq_dec : EqDecision send_call.
Proof. solve_decision. Defined.

(** Calls on the client set, kept as a history. *)
Inductive set_call := Add (c : conn) | Remove (c : conn).

Global Instance set_call_eq_dec : EqDecision set_call.
Proof. solve_decision. Defined.

(** A [for client in self.clients] in progress: CPython's set iterator
    remembers the size the set had when the loop began ([si_used]) and how
    far it has come ([si_pos]). *)
Record set_iter := SetIter { si_used : nat; si_pos : nat }.

(** Where the coroutine [handler(websocket)] of a connection stands. *)
Inductive task :=
  | NotStarted                                   (* handler not called yet *)
  | Receiving                                    (* waiting in [async for] *)
  | FanOut (message : string) (it : set_iter)    (* inside the [for] loop *)
  | Returned                                     (* handler returned *)
  | Failed (e : exn).                            (* handler raised [e] *)

Global Instance set_iter_eq_dec : EqDecision set_iter.
Proof. solve_decision. Defined.

Global Instance task_eq_dec : EqDecision task.
Proof. solve_decision. Defined.

(** The state the handlers share and act on. *)
Record World := MkWorld {
  clients : gset conn;            (* self.clients *)
  link : conn → peer_state;       (* the transport's state of each peer *)
  sends : list send_call;         (* every client.send so far, oldest first *)
  set_calls : list set_call;      (* every clients.add / clients.remove *)
  tasks : gmap conn task          (* the handler coroutines; absent = NotStarted *)
}.

Definition with_clients (s : gset conn) (w : World) : World :=
  MkWorld s (link w) (sends w) (set_calls w) (tasks w).
Definition with_link (l : conn → peer_state) (w : World) : World :=
  MkWorld (clients w) l (sends w) (set_calls w) (tasks w).
Definition with_sends (l : list send_call) (w : World) : World :=
  MkWorld (clients w) (link w) l (set_calls w) (tasks w).
Definition with_set_calls (l : list set_call) (w : World) : World :=
  MkWorld (clients w) (link w) (sends w) l (tasks w).
Definition with_tasks (t : gmap conn task) (w : World) : World :=
  MkWorld (clients w) (link w) (sends w) (set_calls w) t.

Definition task_of (w : World) (c : conn) : task :=
  default NotStarted (tasks w !! c).
Definition set_task (c : conn) (t : task) (w : World) : World :=
  with_tasks (<[c := t]> (tasks w)) w.

(** The texts that reached connection [c], oldest first. *)
Definition received (c : conn) (w : World) : list string :=
  text <$> filter (λ s, target s = c ∧ delivered s = true) (sends w).

(** The texts [send] was called with for connection [c], delivered or not. *)
Definition attempted (c : conn) (w : World) : list string :=
  text <$> filter (λ s, target s = c) (sends w).

(** ** Python statements as state transformers that may raise *)

Inductive result (A : Type) :=
  | Ok (a : A)
  | Raise (e : exn).
Arguments Ok {A} a.
Arguments Raise {A} e.

(** A statement: it runs on a world and leaves a world, also when it raises. *)
Definition M (A : Type) : Type := World → result A * World.

Definition raise {A} (e : exn) : M A := λ w, (Raise e, w).

Global Instance M_ret : MRet M := λ A a w, (Ok a, w).
Global Instance M_bind : MBind M := λ A B k m w,
  match m w with
  | (Ok a, w') => k a w'
  | (Raise e, w') => (Raise e, w')
  end.

(** [self.clients.add(c)]: a set keeps one copy, adding twice is silent. *)
Definition clients_add (c : conn) : M unit := λ w,
  (Ok (), with_set_calls (set_calls w ++ [Add c]) (with_clients ({[c]} ∪ clients w) w)).

(** [self.clients.remove(c)]: [KeyError] when [c] is not in the set. *)
Definition clients_remove (c : conn) : M unit := λ w,
  if decide (c ∈ clients w) then
    (Ok (), with_set_calls (set_calls w ++ [Remove c]) (with_clients (clients w ∖ {[c]}) w))
  else (Raise KeyError, w).

(** [client.open] *)
Definition is_open (client : conn) : M bool := λ w,
  (Ok (client_open (link w client)), w).

(** [await client.send(text)]: writes the frame to an open peer, raises
    [ConnectionClosed] otherwise. *)
Definition send (client : conn) (t : string) : M unit := λ w,
  match link w client with
  | Open => (Ok (), with_sends (sends w ++ [SendCall client t true]) w)
  | Broken | Closed =>
      (Raise ConnectionClosed, with_sends (sends w ++ [SendCall client t false]) w)
  end.

(** The body of the [for] loop, lines 18-22. *)
Definition relay (websocket : conn) (message : string) (client : conn) : M unit :=
  o ← is_open client;
  if o : bool then
    if decide (client = websocket) then send client ("You: " +:+ message)
    else send client message
  else mret ().

(** [for client in l: body(client)]: an exception leaves the loop. *)
Fixpoint for_each (l : list conn) (body : conn → M unit) : M unit :=
  match l with
  | [] => mret ()
  | c :: l' => body c ;; for_each l' body
  end.

(** The text [relay] hands to [send] for [client]. *)
Definition framed (websocket : conn) (message : string) (client : conn) : string :=
  if decide (client = websocket) then "You: " +:+ message else message.

(** [try: body / except websockets.ConnectionClosed: pass / finally: final]
    (lines 15, 23-26).  The [except] clause swallows that one exception;
    [final] runs in every case; another exception goes on to the caller
    after [final], unless [final] raises itself. *)
Definition try_except_finally (body final : M unit) : M unit := λ w,
  match body w with
  | (Ok _, w1) => final w1
  | (Raise ConnectionClosed, w1) => final w1
  | (Raise e, w1) =>
      match final w1 with
      | (Ok _, w2) => (Raise e, w2)
      | (Raise e', w2) => (Raise e', w2)
      end
  end.

(** A block that does nothing but end the way [raised] says: normally
    ([None]) or by an exception. *)
Definition outcome (raised : option exn) : M unit :=
  match raised with
  | None => mret ()
  | Some e => raise e
  end.

(** How [handler] leaves its [try] block when the block has ended with
    [raised]: through [except] and [finally: self.clients.remove(websocket)]. *)
Definition leave (websocket : conn) (raised : option exn) : M unit :=
  try_except_finally (outcome raised) (clients_remove websocket).

(** [leave], with the outcome written into the connection's task. *)
Definition finish (websocket : conn) (raised : option exn) (w : World) : World :=
  match leave websocket raised w with
  | (Ok _, w') => set_task websocket Returned w'
  | (Raise e, w') => set_task websocket (Failed e) w'
  end.

(** ** The loop over the live set, and the interleaving of handlers *)

(** [iter(self.clients)] *)
Definition iter (s : gset conn) : set_iter := SetIter (size s) 0.

Inductive next_result :=
  | Yield (client : conn) (it : set_iter)
  | StopIteration
  | SizeChanged.

(** How the stream of a connection ends, or its task is cancelled. *)
Inductive ending := Graceful | Abrupt | Cancelled.

(** What the [await] in [async for] does then: a graceful close ends the
    iteration, an abrupt one raises [ConnectionClosed], a cancellation
    raises [CancelledError]. *)
Definition ending_raises (how : ending) : option exn :=
  match how with
  | Graceful => None
  | Abrupt => Some ConnectionClosed
  | Cancelled => Some CancelledError
  end.

(** What the event loop does next. *)
Inductive event :=
  | Accept (c : conn)                      (* the server calls handler(c) *)
  | Message (c : conn) (message : string)  (* [async for] of c yields a message *)
  | Iterate (c : conn)                     (* c's [for] loop runs one iteration *)
  | EndStream (c : conn) (how : ending)    (* c's stream ends, or c is cancelled *)
  | Peer (c : conn) (p : peer_state).      (* the transport's view of c changes *)

Global Instance ending_eq_dec : EqDecision ending.
Proof. solve_decision. Defined.

Global Instance event_eq_dec : EqDecision event.
Proof. solve_decision. Defined.

Section Model.

(** The order in which CPython's hash table enumerates a set.  It is
    left open: any enumeration of the elements will do. *)
Variable order : gset conn → list conn.

(** [next(it)] on the set as it is now: the iterator reads the live
    table, and refuses to go on when the set's size is not the one it
    started with.  On a set that has not changed since the loop began this
    is the enumeration of its elements.  When elements were removed and
    others added so that the size is the old one again, CPython goes on
    through the slots of its table, and what it still yields depends on
    the table's layout; the element at the same position of the current
    enumeration stands for it here, a member of the set as with CPython.
    The statements below on what a loop visits, or on how long it runs, are
    made for sets that did not change in this way. *)
Definition next (s : gset conn) (it : set_iter) : next_result :=
  if decide (size s = si_used it) then
    match order s !! si_pos it with
    | Some client => Yield client (SetIter (si_used it) (S (si_pos it)))
    | None => StopIteration
    end
  else SizeChanged.

(** Lines 17-22 run without another task in between. *)
Definition fan_out (websocket : conn) (message : string) : M unit := λ w,
  for_each (order (clients w)) (relay websocket message) w.

(** Lines 16-26 for one message, run without another task in between:
    back to [async for] when the loop ends, out through [except] and
    [finally] when it raises. *)
Definition on_message (websocket : conn) (message : string) (w : World) : World :=
  match fan_out websocket message w with
  | (Ok _, w') => set_task websocket Receiving w'
  | (Raise e, w') => finish websocket (Some e) w'
  end.

(** [async for message in websocket: ...] (lines 16-22) on a stream that
    yields the messages of [inbox] and then ends as [how] says, run without
    another task in between. *)
Fixpoint receive_loop (websocket : conn) (inbox : list string) (how : ending) : M unit :=
  match inbox with
  | [] => outcome (ending_raises how)
  | message :: rest =>
      fan_out websocket message ;; receive_loop websocket rest how
  end.

(** [handler(websocket)], lines 12-27, run without another task in between. *)
Definition handler (websocket : conn) (inbox : list string) (how : ending) : M unit :=
  clients_add websocket ;;
  try_except_finally (receive_loop websocket inbox how) (clients_remove websocket).

(** One step of one handler.  An event that does not fit the task's
    state changes nothing.  The scheduler may switch tasks between any
    two iterations of a [for] loop; the real event loop switches only
    where a [send] suspends, so every real interleaving is a run of
    this machine. *)
Definition step (w : World) (e : event) : World :=
  match e with
  | Accept c =>
      match task_of w c with
      | NotStarted => set_task c Receiving (clients_add c w).2
      | _ => w
      end
  | Message c m =>
      match task_of w c with
      | Receiving => set_task c (FanOut m (iter (clients w))) w
      | _ => w
      end
  | Iterate c =>
      match task_of w c with
      | FanOut m it =>
          match next (clients w) it with
          | SizeChanged => finish c (Some RuntimeError) w
          | StopIteration => set_task c Receiving w
          | Yield client it' =>
              match relay c m client w with
              | (Ok _, w') => set_task c (FanOut m it') w'
              | (Raise e, w') => finish c (Some e) w'
              end
          end
      | _ => w
      end
  | EndStream c how =>
      match task_of w c, how with
      | Receiving, _ => finish c (ending_raises how) w
      | FanOut _ _, Cancelled => finish c (Some CancelledError) w
      | _, _ => w
      end
  | Peer c p => with_link (<[c := p]> (link w)) w
  end.

Definition run (es : list event) (w : World) : World := foldl step w es.

End Model.

(** The server before any connection: an empty set, no handler started. *)
Definition init (l : conn → peer_state) : World := MkWorld ∅ l [] [] ∅.

(** The events of one handler that runs alone: its call, each message of
    [inbox] followed by [k] iterations of the loop, and the stream's end. *)
Fixpoint message_events (c : conn) (k : nat) (inbox : list string) : list event :=
  match inbox with
  | [] => []
  | message :: rest =>
      Message c message :: replicate k (Iterate c) ++ message_events c k rest
  end.

Definition handler_events (c : conn) (k : nat) (inbox : list string) (how : ending)
  : list event :=
  Accept c :: message_events c k inbox ++ [EndStream c how].

(** The handler of [c] has ended. *)
Definition ended (t : task) : bool :=
  match t with Returned | Failed _ => true | _ => false end.

(** The handler of [c] is between its [add] and its [remove]. *)
Definition serving (t : task) : bool :=
  match t with Receiving | FanOut _ _ => true | _ => false end.

(** The connection an event belongs to. *)
Definition actor (e : event) : conn :=
  match e with
  | Accept c | Message c _ | Iterate c | EndStream c _ | Peer c _ => c
  end.

(** One concrete table order: ascending. *)
Definition ascending (s : gset conn) : list conn := merge_sort Nat.le (elements s).

(** Concrete worlds: connections 1, 2, 3 (and 4) registered, their
    handlers waiting for a message. *)
Definition serving_all (l : list conn) : gmap conn task :=
  list_to_map ((λ c, (c, Receiving)) <$> l).

(** All three open. *)
Definition hub_open : World :=
  MkWorld {[1; 2; 3]} (λ _, Open) [] [] (serving_all [1; 2; 3]).

(** The second one broken. *)
Definition hub123 : World :=
  MkWorld {[1; 2; 3]} (λ c, if decide (c = 2) then Broken else Open) [] []
          (serving_all [1; 2; 3]).


(** The second one closed. *)
Definition hub_closed : World :=
  MkWorld {[1; 2; 3]} (λ c, if decide (c = 2) then Closed else Open) [] []
          (serving_all [1; 2; 3]).


(** Three connections arrive; 1 sends "hi"; its loop has served 1 itself
    when the stream of 3 ends; then the loop of 1 goes on. *)
Definition disconnect_during_fan_out : list event :=
  [Accept 1; Accept 2; Accept 3; Message 1 "hi"; Iterate 1;
   EndStream 3 Graceful; Iterate 1].

(** Three connections arrive; 1 sends "hi" and its loop runs to the end;
    2 ends gracefully, 3 is cancelled, 1 ends abruptly. *)
Definition three_guests : list event :=
  [Accept 1; Accept 2; Accept 3; Message 1 "hi";
   Iterate 1; Iterate 1; Iterate 1; Iterate 1;
   EndStream 2 Graceful; EndStream 3 Cancelled; EndStream 1 Abrupt].

(** The world in the middle of [disconnect_during_fan_out]: the loop of 1
    is suspended after its first iteration, and 3 has just left the set. *)
Definition mid_fan_out : World :=
  run ascending (take 6 disconnect_during_fan_out) (init (λ _, Open)).

(** An event of a broadcast: a message arrives, or a loop goes on.  The
    other events change the set or a peer. *)
Definition quiet (e : event) : bool :=
  match e with
  | Message _ _ | Iterate _ => true
  | _ => false
  end.

(** How many iterations the loop of [c] is given in a schedule. *)
Definition iterations (c : conn) (es : list event) : nat :=
  length (filter (λ e, e = Iterate c) es).

(** The loop of [c] is in progress. *)
Definition looping (t : task) : bool :=
  match t with FanOut _ _ => true | _ => false end.

(** Every loop in progress began on a set of the size the set has now. *)
Definition in_step (w : World) : Prop :=
  ∀ c m it, task_of w c = FanOut m it → si_used it = size (clients w).

(** Connections 2 and 3 registered and open, 1 not yet arrived. *)
Definition hub23 : World :=
  MkWorld {[2; 3]} (λ _, Open) [] [] (serving_all [2; 3]).

(** Two broadcasts at once: 1 says "a", 2 says "b", and their loops take
    turns. *)
Definition two_speakers : list event :=
  [Message 1 "a"; Iterate 1; Message 2 "b"; Iterate 2; Iterate 1; Iterate 2;
   Iterate 1; Iterate 2; Iterate 1; Iterate 2].

(** Connections 1 and 2 arrive, 1 says "hi" to both, and the stream of 2
    ends abruptly. *)
Definition guest_two_gone : list event :=
  [Accept 1; Accept 2; Message 1 "hi"; Iterate 1; Iterate 1; Iterate 1;
   EndStream 2 Abrupt].

(** Afterwards 3 arrives and 1 says "bye". *)
Definition bye_after : list event :=
  [Accept 3; Message 1 "bye"; Iterate 1; Iterate 1; Iterate 1].

(** ** Vocabulary of the statements *)

(** The [send] calls made on the way from [w] to [w']. *)
Definition calls_since (w w' : World) : list send_call :=
  drop (length (sends w)) (sends w').

(** The calls that deliver one message to each connection of [l]. *)
Definition frames (websocket : conn) (message : string) (l : list conn) : list send_call :=
  (λ c, SendCall c (framed websocket message c) true) <$> l.

(** How often [x] occurs in the history of set calls. *)
Definition times (x : set_call) (l : list set_call) : nat :=
  length (filter (λ y, y = x) l).

(** What a reachable world satisfies: the set holds the connections whose
    handler is between [add] and [remove], each handler called [add] once
    when it started and [remove] once when it ended, and no [remove]
    missed its element. *)
Record consistent (w : World) : Prop := Consistent {
  cons_members : ∀ c, c ∈ clients w ↔ serving (task_of w c) = true;
  cons_added : ∀ c, times (Add c) (set_calls w) =
                    if decide (task_of w c = NotStarted) then 0 else 1;
  cons_removed : ∀ c, times (Remove c) (set_calls w) =
                      if ended (task_of w c) then 1 else 0;
  cons_found : ∀ c, task_of w c ≠ Failed KeyError
}.

(** ** Basic facts *)

Lemma task_of_set_task c t w c' :
  task_of (set_task c t w) c' = if decide (c = c') then t else task_of w c'.
Proof.
  unfold task_of, set_task; simpl.
  rewrite lookup_insert. by case_decide.
Qed.

Lemma task_of_set_task_eq c t w : task_of (set_task c t w) c = t.
Proof. rewrite task_of_set_task. by rewrite decide_True. Qed.

Lemma task_of_set_task_ne' c t w c' :
  c' ≠ c → task_of (set_task c t w) c' = task_of w c'.
Proof. intros. rewrite task_of_set_task. by rewrite decide_False. Qed.

Lemma set_task_twice c t t' w : set_task c t (set_task c t' w) = set_task c t w.
Proof. unfold set_task, with_tasks; simpl. by rewrite insert_insert_eq. Qed.

Lemma with_sends_nil w : with_sends (sends w ++ []) w = w.
Proof. destruct w. unfold with_sends; simpl. by rewrite app_nil_r. Qed.

Lemma with_sends_app xs ys w :
  with_sends (sends (with_sends (sends w ++ xs) w) ++ ys) (with_sends (sends w ++ xs) w)
  = with_sends (sends w ++ xs ++ ys) w.
Proof. unfold with_sends; simpl. by rewrite <- app_assoc. Qed.

Lemma calls_since_with_sends xs w : calls_since w (with_sends (sends w ++ xs) w) = xs.
Proof. unfold calls_since; simpl. by rewrite drop_app_length. Qed.

Lemma received_with_sends c xs w :
  received c (with_sends (sends w ++ xs) w) =
  received c w ++ (text <$> filter (λ s, target s = c ∧ delivered s = true) xs).
Proof. unfold received; simpl. by rewrite filter_app, fmap_app. Qed.

Lemma attempted_with_sends c xs w :
  attempted c (with_sends (sends w ++ xs) w) =
  attempted c w ++ (text <$> filter (λ s, target s = c) xs).
Proof. unfold attempted; simpl. by rewrite filter_app, fmap_app. Qed.

(** What one pass through the loop body does, by the peer's state. *)
Lemma relay_cases a m c w :
  relay a m c w =
    match link w c with
    | Open => (Ok (), with_sends (sends w ++ [SendCall c (framed a m c) true]) w)
    | Broken =>
        (Raise ConnectionClosed,
         with_sends (sends w ++ [SendCall c (framed a m c) false]) w)
    | Closed => (Ok (), w)
    end.
Proof.
  unfold relay, framed, mbind, M_bind, is_open, send.
  destruct (link w c) eqn:E; simpl; try reflexivity;
    destruct (decide (c = a)); rewrite E; reflexivity.
Qed.

(** The loop body touches nothing but the history of sends. *)
Lemma relay_frame a m c w :
  let w' := (relay a m c w).2 in
  clients w' = clients w ∧ link w' = link w ∧
  set_calls w' = set_calls w ∧ tasks w' = tasks w.
Proof. rewrite relay_cases. by destruct (link w c). Qed.

Lemma for_each_cons c l (body : conn → M unit) w :
  for_each (c :: l) body w =
    match body c w with
    | (Ok _, w') => for_each l body w'
    | (Raise e, w') => (Raise e, w')
    end.
Proof. reflexivity. Qed.

(** A loop that meets no broken peer runs to its end and delivers to the
    open ones, in order. *)
Lemma for_each_relay_ok a m l w :
  Forall (λ c, link w c ≠ Broken) l →
  for_each l (relay a m) w =
    (Ok (), with_sends (sends w ++ frames a m (filter (λ c, link w c = Open) l)) w).
Proof.
  revert w. induction l as [|c l IH]; intros w Hl.
  - simpl. by rewrite with_sends_nil.
  - apply Forall_cons in Hl as [Hc Hl].
    rewrite for_each_cons, relay_cases.
    destruct (link w c) eqn:E; [|done|].
    + rewrite IH by done. simpl link.
      rewrite with_sends_app, filter_cons_True by done. done.
    + rewrite IH by done. rewrite filter_cons_False by congruence. done.
Qed.

(** A loop that meets a broken peer stops there. *)
Lemma for_each_relay_broken a m l1 b l2 w :
  Forall (λ c, link w c ≠ Broken) l1 → link w b = Broken →
  for_each (l1 ++ b :: l2) (relay a m) w =
    (Raise ConnectionClosed,
     with_sends (sends w ++ frames a m (filter (λ c, link w c = Open) l1)
                         ++ [SendCall b (framed a m b) false]) w).
Proof.
  revert w. induction l1 as [|c l1 IH]; intros w Hl Hb.
  - simpl app. rewrite for_each_cons, relay_cases, Hb. done.
  - apply Forall_cons in Hl as [Hc Hl].
    rewrite <- app_comm_cons, for_each_cons, relay_cases.
    destruct (link w c) eqn:E; [|done|].
    + rewrite IH by done. simpl link.
      rewrite with_sends_app, filter_cons_True by done. done.
    + rewrite IH by done. rewrite filter_cons_False by congruence. done.
Qed.

(** Every list has no broken peer or a first one. *)
Lemma first_broken (l : list conn) (w : World) :
  Forall (λ c, link w c ≠ Broken) l ∨
  ∃ l1 b l2, l = l1 ++ b :: l2 ∧ Forall (λ c, link w c ≠ Broken) l1 ∧ link w b = Broken.
Proof.
  induction l as [|c l [IH|(l1 & b & l2 & -> & H1 & Hb)]].
  - by left.
  - destruct (decide (link w c = Broken)) as [E|E].
    + right. exists [], c, l. by repeat split.
    + left. by constructor.
  - destruct (decide (link w c = Broken)) as [E|E].
    + right. exists [], c, (l1 ++ b :: l2). by repeat split.
    + right. exists (c :: l1), b, l2. repeat split; [|done]. by constructor.
Qed.

Lemma filter_none {A} (P : A → Prop) `{∀ x, Decision (P x)} (l : list A) :
  Forall (λ x, ¬ P x) l → filter P l = [].
Proof.
  induction 1 as [|x l Hx _ IH]; [done|].
  by rewrite filter_cons_False.
Qed.

(** In the calls that deliver to a duplicate-free list, those for one
    connection: one call when it is in the list, none otherwise. *)
Lemma frames_for a m c (l : list conn) :
  NoDup l →
  filter (λ s, target s = c) (frames a m l) =
    if decide (c ∈ l) then [SendCall c (framed a m c) true] else [].
Proof.
  induction 1 as [|x l Hx Hl IH]; [done|].
  unfold frames in *. rewrite fmap_cons.
  destruct (decide (x = c)) as [->|Hne].
  - rewrite filter_cons_True by done.
    rewrite IH, decide_False, decide_True by (done || apply list_elem_of_here).
    done.
  - rewrite filter_cons_False by done. rewrite IH.
    destruct (decide (c ∈ l)) as [Hc|Hc].
    + rewrite decide_True; [done|by apply list_elem_of_further].
    + rewrite decide_False; [done|]. rewrite elem_of_cons. by intros [->|?].
Qed.

Lemma frames_delivered a m c (l : list conn) :
  filter (λ s, target s = c ∧ delivered s = true) (frames a m l) =
  filter (λ s, target s = c) (frames a m l).
Proof.
  unfold frames. induction l as [|x l IH]; [done|].
  rewrite fmap_cons, !filter_cons, IH; simpl.
  destruct (decide (x = c)) as [->|Hne].
  - by rewrite !decide_True.
  - rewrite !decide_False; [done..|]. by intros [? _].
Qed.

Lemma frames_for_absent a m c (l : list conn) :
  c ∉ l → filter (λ s, target s = c) (frames a m l) = [].
Proof.
  intros Hc. apply filter_none, Forall_fmap, Forall_forall.
  intros x Hx; simpl. congruence.
Qed.



(** C5, as the code has it: [set.remove] of a connection that is not in
    the set leaves the set as it is (same size, same members) and raises
    [KeyError]; it is not a silent no-op. *)
Theorem remove_absent_raises c w :
  c ∉ clients w →
  clients_remove c w = (Raise KeyError, w) ∧
  clients (clients_remove c w).2 = clients w ∧
  size (clients (clients_remove c w).2) = size (clients w).
Proof.
  intros Hc. unfold clients_remove. by rewrite decide_False.
Qed.

(** C6, as the code has it: [set.add] of a connection that is already in
    the set succeeds silently and leaves the set as it is; nothing is
    raised for a duplicate. *)
Theorem add_present_is_silent c w :
  c ∈ clients w →
  (clients_add c w).1 = Ok () ∧
  clients (clients_add c w).2 = clients w ∧
  size (clients (clients_add c w).2) = size (clients w).
Proof.
  intros Hc. unfold clients_add; simpl.
  assert ({[c]} ∪ clients w = clients w) as -> by set_solver. done.
Qed.

(** What [leave] does when the connection is in the set, and when not. *)
Lemma leave_present c r w :
  c ∈ clients w →
  leave c r w =
    (match r with
     | None | Some ConnectionClosed => Ok ()
     | Some e => Raise e
     end,
     with_set_calls (set_calls w ++ [Remove c]) (with_clients (clients w ∖ {[c]}) w)).
Proof.
  intros Hc. unfold leave, try_except_finally, outcome, clients_remove.
  destruct r as [[]|]; simpl; by rewrite decide_True.
Qed.

Lemma leave_absent c r w : c ∉ clients w → leave c r w = (Raise KeyError, w).
Proof.
  intros Hc. unfold leave, try_except_finally, outcome, clients_remove.
  destruct r as [[]|]; simpl; by rewrite decide_False.
Qed.

Lemma finish_present c r w :
  c ∈ clients w →
  finish c r w =
    set_task c
      match r with
      | None | Some ConnectionClosed => Returned
      | Some e => Failed e
      end
      (with_set_calls (set_calls w ++ [Remove c])
         (with_clients (clients w ∖ {[c]}) w)).
Proof.
  intros Hc. unfold finish. rewrite leave_present by done.
  by destruct r as [[]|].
Qed.

Lemma finish_absent c r w :
  c ∉ clients w → finish c r w = set_task c (Failed KeyError) w.
Proof. intros Hc. unfold finish. by rewrite leave_absent. Qed.

Lemma finish_clients c r w : clients (finish c r w) = clients w ∖ {[c]}.
Proof.
  destruct (decide (c ∈ clients w)) as [Hc|Hc].
  - by rewrite finish_present.
  - rewrite finish_absent by done. simpl. set_solver.
Qed.

(** *** The invariant of the machine *)

Lemma times_snoc x y l :
  times x (l ++ [y]) = times x l + (if decide (y = x) then 1 else 0).
Proof.
  unfold times. rewrite filter_app, length_app, filter_cons, filter_nil.
  by destruct (decide (y = x)).
Qed.

Lemma times_elem x l : x ∈ l ↔ times x l ≠ 0.
Proof.
  unfold times. induction l as [|y l IH].
  - split; [by intros ?%elem_of_nil|done].
  - rewrite elem_of_cons, filter_cons, IH.
    destruct (decide (y = x)) as [->|Hne]; simpl; [naive_solver lia|].
    split; [intros [->|?]; done|by right].
Qed.

Lemma consistent_init l : consistent (init l).
Proof. by split; intros c; unfold task_of; simpl; rewrite ?lookup_empty. Qed.

(** The invariant speaks of the set, the history of set calls and the
    tasks only. *)
Lemma consistent_ext w w1 :
  clients w1 = clients w → set_calls w1 = set_calls w → tasks w1 = tasks w →
  consistent w → consistent w1.
Proof.
  intros Hc Hs Ht [H1 H2 H3 H4].
  split; intros c; unfold task_of in *; rewrite ?Hc, ?Hs, ?Ht; auto.
Qed.

(** A handler that moves between [Receiving] and [FanOut]. *)
Lemma consistent_stay x t w :
  consistent w → serving (task_of w x) = true → serving t = true →
  consistent (set_task x t w).
Proof.
  intros [H1 H2 H3 H4] Hx Ht.
  split; intros c; rewrite task_of_set_task; simpl;
    destruct (decide (x = c)) as [<-|Hne]; auto.
  - rewrite H1, Hx, Ht. done.
  - rewrite H2. destruct (task_of w x), t; done.
  - rewrite H3. destruct (task_of w x), t; done.
  - by destruct t.
Qed.

(** A handler that starts. *)
Lemma consistent_accept x w :
  consistent w → task_of w x = NotStarted →
  consistent (set_task x Receiving (clients_add x w).2).
Proof.
  intros [H1 H2 H3 H4] Hx.
  split; intros c; rewrite task_of_set_task; simpl;
    change (task_of (with_set_calls _ (with_clients _ w)) c) with (task_of w c);
    destruct (decide (x = c)) as [<-|Hne]; rewrite ?times_snoc.
  - split; [done|set_solver].
  - rewrite <- H1. set_solver.
  - rewrite H2, Hx, !decide_True by done. done.
  - rewrite H2, (decide_False (P := Add x = Add c)) by congruence. lia.
  - rewrite H3, Hx. simpl. done.
  - rewrite H3, (decide_False (P := Add x = Remove c)) by done. lia.
  - done.
  - apply H4.
Qed.

(** A handler that ends, with or without an exception. *)
Lemma consistent_finish x r w :
  consistent w → serving (task_of w x) = true → r ≠ Some KeyError →
  consistent (finish x r w).
Proof.
  intros [H1 H2 H3 H4] Hx Hr.
  assert (x ∈ clients w) as Hin by by apply H1.
  rewrite finish_present by done.
  set (w1 := with_set_calls _ _).
  assert (∀ t, ended t = true → t ≠ Failed KeyError → consistent (set_task x t w1)) as Hgo.
  { intros t Ht Hk. subst w1.
    split; intros c; rewrite task_of_set_task; simpl;
      change (task_of (with_set_calls _ (with_clients _ w)) c) with (task_of w c);
      destruct (decide (x = c)) as [<-|Hne]; rewrite ?times_snoc.
    - split; [set_solver|]. by destruct t.
    - rewrite <- H1. set_solver.
    - rewrite H2, (decide_False (P := Remove x = Add x)) by done.
      destruct (task_of w x), t; done.
    - rewrite H2, (decide_False (P := Remove x = Add c)) by done. lia.
    - rewrite H3, decide_True, Ht by done. by destruct (task_of w x).
    - rewrite H3, (decide_False (P := Remove x = Remove c)) by congruence. lia.
    - done.
    - apply H4. }
  destruct r as [[]|]; simpl; by apply Hgo.
Qed.

Section Proofs.

Variable order : gset conn → list conn.
Hypothesis order_perm : ∀ s, order s ≡ₚ elements s.

Lemma order_elem c s : c ∈ order s ↔ c ∈ s.
Proof. by rewrite order_perm, elem_of_elements. Qed.

Lemma order_NoDup s : NoDup (order s).
Proof. rewrite order_perm. apply NoDup_elements. Qed.

Lemma order_length s : length (order s) = size s.
Proof. by rewrite order_perm. Qed.

(** *** The fan-out run in one piece *)

(** The loop touches nothing but the history of sends. *)
Lemma for_each_relay_frame a m l w :
  let w' := (for_each l (relay a m) w).2 in
  clients w' = clients w ∧ link w' = link w ∧
  set_calls w' = set_calls w ∧ tasks w' = tasks w.
Proof.
  revert w. induction l as [|c l IH]; intros w; [done|].
  rewrite for_each_cons.
  pose proof (relay_frame a m c w) as Hc.
  destruct (relay a m c w) as [[[]|e] w1]; simpl in *; [|done].
  specialize (IH w1). simpl in IH.
  destruct IH as (?&?&?&?), Hc as (?&?&?&?). repeat split; congruence.
Qed.

Lemma fan_out_ok a m w :
  (∀ d, d ∈ clients w → link w d ≠ Broken) →
  fan_out order a m w =
    (Ok (), with_sends (sends w ++
              frames a m (filter (λ c, link w c = Open) (order (clients w)))) w).
Proof.
  intros H. apply for_each_relay_ok, Forall_forall.
  intros d Hd. by apply H, order_elem.
Qed.

Lemma fan_out_stops a m w l1 b l2 :
  order (clients w) = l1 ++ b :: l2 →
  Forall (λ c, link w c ≠ Broken) l1 → link w b = Broken →
  fan_out order a m w =
    (Raise ConnectionClosed,
     with_sends (sends w ++ frames a m (filter (λ c, link w c = Open) l1)
                         ++ [SendCall b (framed a m b) false]) w).
Proof.
  intros Ho H1 Hb. unfold fan_out. rewrite Ho.
  by apply for_each_relay_broken.
Qed.

(** A registered broken peer makes the fan-out raise at the first such. *)
Lemma fan_out_first_broken w c :
  c ∈ clients w → link w c = Broken →
  ∃ l1 b l2, order (clients w) = l1 ++ b :: l2 ∧
    Forall (λ d, link w d ≠ Broken) l1 ∧ link w b = Broken.
Proof.
  intros Hc Hb.
  destruct (first_broken (order (clients w)) w) as [Hall|H]; [|done].
  rewrite Forall_forall in Hall.
  destruct (Hall c); [by apply order_elem|done].
Qed.

Lemma attempted_elsewhere a m c b t (l : list conn) w :
  c ∉ l → c ≠ b →
  attempted c (with_sends (sends w ++ frames a m l ++ [SendCall b t false]) w)
  = attempted c w.
Proof.
  intros Hc Hb. rewrite attempted_with_sends, filter_app.
  rewrite frames_for_absent by done.
  rewrite filter_cons_False, filter_nil by (simpl; congruence).
  by rewrite app_nil_r.
Qed.

Lemma on_message_raised a m w e w1 :
  fan_out order a m w = (Raise e, w1) →
  on_message order a m w = finish a (Some e) w1.
Proof. unfold on_message. by intros ->. Qed.

(** C8: the fan-out loop leaves the client set as it found it, however
    it ends (normally or by an exception), and calls neither [add] nor
    [remove]; and a step of one connection's handler never changes whether
    another connection is in the set, so a connection leaves the set
    only through its own handler. *)
Theorem fan_out_keeps_registry a m w :
  clients (fan_out order a m w).2 = clients w ∧
  set_calls (fan_out order a m w).2 = set_calls w ∧
  ∀ e c, c ≠ actor e → (c ∈ clients (step order w e) ↔ c ∈ clients w).
Proof using Type.
  clear order_perm. split_and!.
  - apply (for_each_relay_frame a m (order (clients w)) w).
  - apply (for_each_relay_frame a m (order (clients w)) w).
  - intros e c Hc. destruct e as [x|x msg|x|x how|x p]; simpl in Hc; simpl.
    + destruct (task_of w x); simpl; set_solver.
    + by destruct (task_of w x).
    + destruct (task_of w x) as [| |msg it| |]; try done.
      destruct (next order (clients w) it) as [client it'| |]; [| done |].
      * pose proof (relay_frame x msg client w) as (Hcl & _).
        destruct (relay x msg client w) as [[[]|e] w1]; simpl in *.
        -- by rewrite Hcl.
        -- rewrite finish_clients, Hcl. set_solver.
      * rewrite finish_clients. set_solver.
    + destruct (task_of w x), how; try done; rewrite finish_clients; set_solver.
    + done.
Qed.

(** C10: when a registered peer is broken, the fan-out for a message of
    sender [a] raises [ConnectionClosed] at a recipient, and [a]'s own
    handler ends with it: the [except] clause swallows the exception, the
    handler returns, and [finally] has removed [a] from the set, whatever
    the state of [a]'s own stream, which the handler does not touch. *)
Theorem failed_send_ends_sender a c m w :
  a ∈ clients w → c ∈ clients w → link w c = Broken →
  (fan_out order a m w).1 = Raise ConnectionClosed ∧
  task_of (on_message order a m w) a = Returned ∧
  (a ∉ clients (on_message order a m w)) ∧
  clients (on_message order a m w) = clients w ∖ {[a]} ∧
  set_calls (on_message order a m w) = set_calls w ++ [Remove a] ∧
  link (on_message order a m w) a = link w a.
Proof.
  intros Ha Hc Hb.
  destruct (fan_out_first_broken w c Hc Hb) as (l1 & b & l2 & Ho & H1 & Hb').
  pose proof (fan_out_stops a m w l1 b l2 Ho H1 Hb') as Hf.
  rewrite (on_message_raised _ _ _ _ _ Hf), Hf.
  rewrite finish_present by done. simpl.
  rewrite task_of_set_task_eq. split_and!; try done. set_solver.
Qed.

(** C1, as the code has it: a send that raises ends the fan-out at that
    recipient.  No send is attempted to any connection enumerated after
    a broken peer; the exception leaves the loop and is caught by the
    [except] clause around the receive loop, after which the sender's
    handler returns.  The connections before the first broken peer were
    served as usual. *)
Theorem failed_send_aborts_fan_out a m w l1 b l2 :
  a ∈ clients w →
  order (clients w) = l1 ++ b :: l2 → link w b = Broken →
  (fan_out order a m w).1 = Raise ConnectionClosed ∧
  (∀ c, c ∈ l2 → attempted c (fan_out order a m w).2 = attempted c w) ∧
  task_of (on_message order a m w) a = Returned ∧
  (Forall (λ c, link w c ≠ Broken) l1 →
   calls_since w (fan_out order a m w).2 =
     frames a m (filter (λ c, link w c = Open) l1) ++ [SendCall b (framed a m b) false]).
Proof.
  intros Ha Ho Hb.
  pose proof (order_NoDup (clients w)) as Hnd. rewrite Ho in Hnd.
  apply NoDup_app in Hnd as (Hnd1 & Hsep & Hnd2).
  apply NoDup_cons in Hnd2 as [Hb2 _].
  assert (∃ k1 b' k2, order (clients w) = k1 ++ b' :: k2 ∧
            Forall (λ c, link w c ≠ Broken) k1 ∧ link w b' = Broken ∧
            ∀ c, c ∈ l2 → (c ∉ k1) ∧ c ≠ b') as (k1 & b' & k2 & Ho' & Hk1 & Hb' & Hl2).
  { destruct (first_broken l1 w) as [Hall|(k1 & b' & k2 & -> & Hk1 & Hb')].
    - exists l1, b, l2. split_and!; try done.
      intros c Hc. split; [|by intros ->].
      intros Hc1. by apply (Hsep c Hc1), list_elem_of_further.
    - exists k1, b', (k2 ++ b :: l2). split_and!; try done.
      + by rewrite Ho, <- app_assoc.
      + intros c Hc. split.
        * intros Hc1. apply (Hsep c); [|by apply list_elem_of_further].
          apply elem_of_app. by left.
        * intros ->. apply (Hsep b'); [|by apply list_elem_of_further].
          apply elem_of_app. right. apply list_elem_of_here. }
  pose proof (fan_out_stops a m w k1 b' k2 Ho' Hk1 Hb') as Hf.
  rewrite (on_message_raised _ _ _ _ _ Hf), Hf. simpl.
  split_and!.
  - done.
  - intros c Hc. destruct (Hl2 c Hc) as [Hc1 Hc2].
    apply attempted_elsewhere; [|done].
    rewrite list_elem_of_filter. by intros [_ ?].
  - rewrite finish_present by done. by rewrite task_of_set_task_eq.
  - intros Hall. rewrite calls_since_with_sends.
    pose proof (fan_out_stops a m w l1 b l2 Ho Hall Hb) as Hf'.
    rewrite Hf in Hf'. injection Hf' as Hf'.
    by apply app_inv_head in Hf'.
Qed.




(** With no broken peer registered, each registered open peer gets
    exactly its framed text, and nobody else gets anything. *)
Lemma received_fan_out_ok a m w d :
  (∀ d, d ∈ clients w → link w d ≠ Broken) →
  received d (fan_out order a m w).2 =
    received d w ++
    (if decide (d ∈ clients w ∧ link w d = Open) then [framed a m d] else []).
Proof.
  intros Hno. rewrite fan_out_ok by done. simpl.
  rewrite received_with_sends, frames_delivered, frames_for
    by apply NoDup_filter, order_NoDup.
  f_equal.
  destruct (decide (d ∈ clients w ∧ link w d = Open)) as [[H1 H2]|Hn].
  - rewrite decide_True; [done|]. apply list_elem_of_filter. split; [done|].
    by apply order_elem.
  - rewrite decide_False; [done|]. rewrite list_elem_of_filter, order_elem.
    intros [? ?]. by apply Hn.
Qed.




(** *** The machine *)

Lemma step_consistent w e : consistent w → consistent (step order w e).
Proof.
  intros Hw. destruct e as [x|x msg|x|x how|x p]; simpl.
  - destruct (task_of w x) eqn:Hx; try done. by apply consistent_accept.
  - destruct (task_of w x) eqn:Hx; try done.
    apply consistent_stay; [done| |done]. by rewrite Hx.
  - destruct (task_of w x) as [| |msg it| |] eqn:Hx; try done.
    assert (serving (task_of w x) = true) as Hs by by rewrite Hx.
    destruct (next order (clients w) it) as [client it'| |].
    + pose proof (relay_frame x msg client w) as (Hc & _ & Hsc & Ht).
      pose proof (relay_cases x msg client w) as Hr.
      destruct (relay x msg client w) as [[[]|e] w1]; simpl in *.
      * apply consistent_stay; [by apply (consistent_ext w)| |done].
        unfold task_of in *. by rewrite Ht.
      * apply consistent_finish; [by apply (consistent_ext w)| |].
        -- unfold task_of in *. by rewrite Ht.
        -- destruct (link w client); naive_solver.
    + by apply consistent_stay.
    + by apply consistent_finish.
  - destruct (task_of w x) eqn:Hx, how; try done;
      apply consistent_finish; try done; by rewrite Hx.
  - by apply (consistent_ext w).
Qed.

Lemma run_consistent es w : consistent w → consistent (run order es w).
Proof.
  revert w. induction es as [|e es IH]; intros w Hw; [done|].
  apply IH. by apply step_consistent.
Qed.

(** C2: after any sequence of connects, messages, loop iterations,
    stream endings (graceful, abrupt or by cancellation) and changes of
    the peers' states, the client set holds exactly the connections
    for which [add] was called and [remove] was not; the loop enumerates
    each of them once; and [remove] was called exactly once for every
    connection whose handler has ended, with or without an exception,
    never before, and never on an absent connection ([KeyError]). *)
Theorem registry_tracks_handlers l es :
  let w := run order es (init l) in
  (∀ c, c ∈ clients w ↔ Add c ∈ set_calls w ∧ Remove c ∉ set_calls w) ∧
  NoDup (order (clients w)) ∧
  (∀ c, times (Remove c) (set_calls w) = if ended (task_of w c) then 1 else 0) ∧
  (∀ c, (times (Add c) (set_calls w) ≤ 1)%nat) ∧
  (∀ c, task_of w c ≠ Failed KeyError).
Proof.
  intros w.
  destruct (run_consistent es (init l) (consistent_init l)) as [H1 H2 H3 H4].
  fold w in H1, H2, H3, H4.
  split_and!; try done.
  - intros c. rewrite H1, !times_elem, H2, H3.
    destruct (task_of w c); simpl; naive_solver.
  - apply order_NoDup.
  - intros c. rewrite H2. case_decide; lia.
Qed.

(** *** The loop, one iteration at a time *)

Lemma run_cons e es w : run order (e :: es) w = run order es (step order w e).
Proof. reflexivity. Qed.

(** Outside a [for] loop, [Iterate] has nothing to do. *)
Lemma run_idle a k w :
  (∀ m it, task_of w a ≠ FanOut m it) →
  run order (replicate k (Iterate a)) w = w.
Proof.
  intros Hidle. induction k as [|k IH]; [done|].
  simpl replicate. rewrite run_cons. simpl step.
  destruct (task_of w a) as [| |m it| |] eqn:Ha; try done.
  by destruct (Hidle m it).
Qed.

Lemma for_each_set_task x t a m l w :
  for_each l (relay a m) (set_task x t w) =
    ((for_each l (relay a m) w).1, set_task x t (for_each l (relay a m) w).2).
Proof.
  revert w. induction l as [|c l IH]; intros w; [done|].
  rewrite !for_each_cons, !relay_cases. simpl link.
  destruct (link w c); [apply (IH (with_sends _ w)) | done | apply IH].
Qed.

Lemma finish_set_task a r t w : finish a r (set_task a t w) = finish a r w.
Proof.
  destruct (decide (a ∈ clients w)) as [Ha|Ha].
  - rewrite !finish_present by done.
    unfold set_task, with_tasks, with_set_calls, with_clients; simpl.
    by rewrite insert_insert_eq.
  - rewrite !finish_absent by done. apply set_task_twice.
Qed.

Lemma finish_task a r w : ∀ m it, task_of (finish a r w) a ≠ FanOut m it.
Proof.
  intros m it. destruct (decide (a ∈ clients w)) as [Ha|Ha].
  - rewrite finish_present, task_of_set_task_eq by done. by destruct r as [[]|].
  - by rewrite finish_absent, task_of_set_task_eq by done.
Qed.

(** A loop that stands at position [p] of a set whose size is the one
    it started with, and is then left alone, does what [for_each] does
    on the rest of the enumeration. *)
Lemma iterate_run a m rest :
  ∀ w p k,
    task_of w a = FanOut m (SetIter (size (clients w)) p) →
    drop p (order (clients w)) = rest →
    length rest < k →
    run order (replicate k (Iterate a)) w =
      match for_each rest (relay a m) w with
      | (Ok _, w') => set_task a Receiving w'
      | (Raise e, w') => finish a (Some e) w'
      end.
Proof.
  induction rest as [|c rest IH]; intros w p k Ht Hd Hk;
    (destruct k as [|k]; [simpl in Hk; lia|]);
    simpl replicate; rewrite run_cons; simpl step; rewrite Ht;
    unfold next; simpl; rewrite decide_True by done.
  - assert (order (clients w) !! p = None) as ->.
    { apply lookup_ge_None. apply (f_equal length) in Hd.
      rewrite length_drop in Hd. simpl in Hd. lia. }
    rewrite run_idle; [done|].
    intros m' it'. by rewrite task_of_set_task_eq.
  - assert (order (clients w) !! p = Some c) as Hp.
    { rewrite <- (Nat.add_0_r p), <- lookup_drop, Hd. done. }
    rewrite Hp. unfold mbind, M_bind.
    pose proof (relay_frame a m c w) as (Hc & _).
    destruct (relay a m c w) as [[[]|e] w1]; simpl in Hc.
    + rewrite (IH _ (S p) k).
      * rewrite for_each_set_task.
        destruct (for_each rest (relay a m) w1) as [[[]|e] w2]; simpl.
        -- apply set_task_twice.
        -- apply finish_set_task.
      * rewrite task_of_set_task_eq. simpl. by rewrite Hc.
      * simpl. rewrite Hc. erewrite drop_S in Hd by done. by injection Hd.
      * simpl in Hk. lia.
    + rewrite run_idle; [done|]. apply finish_task.
Qed.

Lemma uninterrupted_fan_out a m w k :
  task_of w a = Receiving → size (clients w) < k →
  run order (Message a m :: replicate k (Iterate a)) w = on_message order a m w.
Proof.
  intros Ha Hk. rewrite run_cons. simpl step. rewrite Ha.
  rewrite (iterate_run a m (order (clients w)) _ 0 k).
  - unfold on_message, fan_out. rewrite for_each_set_task.
    destruct (for_each (order (clients w)) (relay a m) w) as [[[]|e] w2]; simpl.
    + apply set_task_twice.
    + apply finish_set_task.
  - by rewrite task_of_set_task_eq.
  - done.
  - simpl. by rewrite order_length.
Qed.

(** C4, as the code has it: the loop reads the live set, it takes no
    copy.  Left alone (no other task runs between its iterations), the
    fan-out visits the enumeration of the set as it was when the loop
    began, and does what the loop run in one piece does.  When the set
    has another size at the next iteration than at the start of the
    loop, because a handler added or removed its connection in between,
    the iteration raises [RuntimeError]: nothing more is sent, [except]
    does not catch it, [finally] removes the sender, and the handler
    fails.  While the size is the one the loop started with, no
    iteration raises [RuntimeError]. *)
Theorem fan_out_reads_live_set a m w :
  (task_of w a = Receiving → ∀ k, size (clients w) < k →
     run order (Message a m :: replicate k (Iterate a)) w = on_message order a m w) ∧
  (∀ it, task_of w a = FanOut m it → a ∈ clients w →
     size (clients w) ≠ si_used it →
     task_of (step order w (Iterate a)) a = Failed RuntimeError ∧
     sends (step order w (Iterate a)) = sends w ∧
     clients (step order w (Iterate a)) = clients w ∖ {[a]}) ∧
  (∀ it, task_of w a = FanOut m it → size (clients w) = si_used it →
     task_of (step order w (Iterate a)) a ≠ Failed RuntimeError).
Proof.
  split_and!.
  - intros Ha k Hk. by apply uninterrupted_fan_out.
  - intros it Ha Hin Hsz. simpl step. rewrite Ha. unfold next.
    rewrite decide_False by done.
    rewrite finish_present, task_of_set_task_eq by done. done.
  - intros it Ha Hsz. simpl step. rewrite Ha. unfold next.
    rewrite decide_True by done.
    destruct (order (clients w) !! si_pos it) as [c|].
    + rewrite relay_cases. destruct (link w c).
      * by rewrite task_of_set_task_eq.
      * destruct (decide (a ∈ clients w)) as [Hin|Hin].
        -- by rewrite finish_present, task_of_set_task_eq by done.
        -- by rewrite finish_absent, task_of_set_task_eq by done.
      * by rewrite task_of_set_task_eq.
    + by rewrite task_of_set_task_eq.
Qed.

(** *** The machine and [handler] *)

Lemma run_app es1 es2 w : run order (es1 ++ es2) w = run order es2 (run order es1 w).
Proof. apply foldl_app. Qed.

Lemma finish_ended c r w : ended (task_of (finish c r w) c) = true.
Proof.
  destruct (decide (c ∈ clients w)) as [Hc|Hc].
  - rewrite finish_present, task_of_set_task_eq by done. by destruct r as [[]|].
  - by rewrite finish_absent, task_of_set_task_eq by done.
Qed.

(** Once the handler has ended, its events change nothing. *)
Lemma events_after_end c k how rest w :
  ended (task_of w c) = true →
  run order (message_events c k rest ++ [EndStream c how]) w = w.
Proof.
  intros He. induction rest as [|m rest IH]; simpl message_events.
  - simpl. by destruct (task_of w c), how.
  - change (Message c m :: replicate k (Iterate c) ++ message_events c k rest)
      with ([Message c m] ++ replicate k (Iterate c) ++ message_events c k rest).
    rewrite <- !app_assoc, (run_app [_]), (run_app (replicate _ _)).
    assert (run order [Message c m] w = w) as ->
      by (simpl; by destruct (task_of w c)).
    rewrite run_idle; [exact IH|].
    intros m' it E. by rewrite E in He.
Qed.

Lemma fan_out_set_task x t a m w :
  fan_out order a m (set_task x t w) =
    ((fan_out order a m w).1, set_task x t (fan_out order a m w).2).
Proof. apply for_each_set_task. Qed.

Lemma receive_loop_set_task x t a how inbox w :
  receive_loop order a inbox how (set_task x t w) =
    ((receive_loop order a inbox how w).1,
     set_task x t (receive_loop order a inbox how w).2).
Proof.
  revert w. induction inbox as [|m rest IH]; intros w.
  - by destruct how.
  - simpl. unfold mbind, M_bind. rewrite fan_out_set_task.
    destruct (fan_out order a m w) as [[[]|e] w1]; simpl; [apply IH|done].
Qed.

Lemma try_except_finally_outcome (body final : M unit) w :
  try_except_finally body final w =
    try_except_finally
      (outcome match (body w).1 with Ok _ => None | Raise e => Some e end)
      final (body w).2.
Proof.
  unfold try_except_finally, outcome.
  by destruct (body w) as [[[]|[]] w1].
Qed.

(** The receive loop of a handler that runs alone. *)
Lemma loop_run c k how inbox :
  ∀ w, task_of w c = Receiving → size (clients w) < k →
    run order (message_events c k inbox ++ [EndStream c how]) w =
      finish c
        match (receive_loop order c inbox how w).1 with
        | Ok _ => None
        | Raise e => Some e
        end
        (receive_loop order c inbox how w).2.
Proof.
  induction inbox as [|m rest IH]; intros w Hc Hk.
  - simpl. rewrite Hc. by destruct how.
  - simpl message_events.
    change (Message c m :: replicate k (Iterate c) ++ message_events c k rest)
      with ((Message c m :: replicate k (Iterate c)) ++ message_events c k rest).
    rewrite <- app_assoc, run_app, uninterrupted_fan_out by done.
    simpl receive_loop. unfold mbind, M_bind, on_message.
    pose proof (for_each_relay_frame c m (order (clients w)) w) as (Hcl & _).
    fold (fan_out order c m w) in Hcl.
    destruct (fan_out order c m w) as [[[]|e] w1]; simpl in Hcl; simpl.
    + rewrite IH.
      * rewrite receive_loop_set_task. simpl. apply finish_set_task.
      * by rewrite task_of_set_task_eq.
      * simpl. by rewrite Hcl.
    + apply events_after_end, finish_ended.
Qed.

(** X4: the machine refines [handler].  The events of one handler (its
    call, each message followed by enough iterations of the loop, and the
    end of its stream), with no other task in between, leave the world
    that [handler] run in one piece leaves, and the task records how
    [handler] ended: returned, or raised which exception. *)
Theorem handler_alone c k inbox how w :
  task_of w c = NotStarted → S (size (clients w)) < k →
  run order (handler_events c k inbox how) w =
    match handler order c inbox how w with
    | (Ok _, w') => set_task c Returned w'
    | (Raise e, w') => set_task c (Failed e) w'
    end.
Proof.
  intros Hc Hk. unfold handler_events. rewrite run_cons. simpl step. rewrite Hc.
  rewrite loop_run.
  - rewrite receive_loop_set_task. simpl. rewrite finish_set_task.
    unfold handler, mbind, M_bind, clients_add. cbn [fst snd].
    rewrite try_except_finally_outcome. reflexivity.
  - by rewrite task_of_set_task_eq.
  - simpl. eapply Nat.le_lt_trans; [|exact Hk].
    rewrite size_union_alt, size_singleton.
    pose proof (subseteq_size (clients w ∖ {[c]}) (clients w)) as Hs.
    assert (clients w ∖ {[c]} ⊆ clients w) as Hsub by set_solver.
    specialize (Hs Hsub). lia.
Qed.

(** *** A whole conversation *)

Lemma receive_loop_ok a how inbox :
  ∀ w, (∀ d, d ∈ clients w → link w d ≠ Broken) →
    (receive_loop order a inbox how w).1 = (outcome (ending_raises how) w).1 ∧
    clients (receive_loop order a inbox how w).2 = clients w ∧
    set_calls (receive_loop order a inbox how w).2 = set_calls w ∧
    ∀ c, received c (receive_loop order a inbox how w).2 =
         received c w ++
         if decide (c ∈ clients w ∧ link w c = Open)
         then (λ m, framed a m c) <$> inbox else [].
Proof.
  induction inbox as [|m rest IH]; intros w Hno.
  - split_and!; try by destruct how.
    intros c. destruct how; simpl; case_decide; by rewrite app_nil_r.
  - simpl receive_loop. unfold mbind, M_bind.
    pose proof (λ c, received_fan_out_ok a m w c Hno) as Hrec.
    rewrite fan_out_ok in Hrec |- * by done. cbn [snd] in Hrec.
    set (w1 := with_sends _ w) in *.
    destruct (IH w1 Hno) as (H1 & H2 & H3 & H4).
    split_and!; try done.
    + rewrite H1. by destruct how.
    + intros c. rewrite H4, Hrec. simpl clients. simpl link.
      rewrite <- app_assoc. f_equal. by case_decide.
Qed.

(** X1: a handler that runs alone on a set without broken peers relays
    its whole inbox in order: every connection that is registered (the
    sender included) and open receives exactly the texts of the inbox, one
    per message and in the order the sender's stream yielded them, framed
    with "You: " for the sender and unchanged for the others; nobody else
    receives anything; the handler then has removed its connection, and
    returns unless it was cancelled. *)
Theorem handler_delivers_in_order a inbox how w :
  (∀ d, d ∈ {[a]} ∪ clients w → link w d ≠ Broken) →
  (handler order a inbox how w).1
    = match how with Cancelled => Raise CancelledError | _ => Ok () end ∧
  (∀ c, received c (handler order a inbox how w).2 =
        received c w ++
        if decide (c ∈ {[a]} ∪ clients w ∧ link w c = Open)
        then (λ m, framed a m c) <$> inbox else []) ∧
  clients (handler order a inbox how w).2 = clients w ∖ {[a]}.
Proof.
  intros Hno. unfold handler, mbind, M_bind, clients_add.
  set (w0 := with_set_calls _ _).
  destruct (receive_loop_ok a how inbox w0 Hno) as (H1 & H2 & H3 & H4).
  rewrite try_except_finally_outcome.
  change (try_except_finally (outcome ?r) (clients_remove a) ?w')
    with (leave a r w').
  assert (a ∈ clients (receive_loop order a inbox how w0).2) as Hin
    by (rewrite H2; simpl; set_solver).
  rewrite leave_present by done. rewrite H1, H2. cbn [fst snd].
  split_and!.
  - by destruct how.
  - intros c. apply H4.
  - simpl. set_solver.
Qed.

(** *** What escapes a handler *)

Lemma finish_failed c0 r w c x :
  c0 ∈ clients w → task_of (finish c0 r w) c = Failed x →
  task_of w c = Failed x ∨ (r = Some x ∧ x ≠ ConnectionClosed).
Proof.
  intros Hin. rewrite finish_present by done. rewrite task_of_set_task.
  case_decide; [|by left].
  destruct r as [[]|]; intros [= <-]; right; done.
Qed.

Lemma step_failed w e c x :
  consistent w → task_of (step order w e) c = Failed x →
  task_of w c = Failed x ∨ x = RuntimeError ∨ x = CancelledError.
Proof.
  intros Hw.
  assert (∀ c0, serving (task_of w c0) = true → c0 ∈ clients w) as Hin
    by (intros c0; apply (cons_members w Hw)).
  destruct e as [c0|c0 msg|c0|c0 how|c0 p]; simpl.
  - destruct (task_of w c0) eqn:E; try by left.
    rewrite task_of_set_task. case_decide; [done|by left].
  - destruct (task_of w c0) eqn:E; try by left.
    rewrite task_of_set_task. case_decide; [done|by left].
  - destruct (task_of w c0) as [| |msg it| |] eqn:E; try by left.
    assert (c0 ∈ clients w) as H0 by (apply Hin; by rewrite E).
    destruct (next order (clients w) it) as [client it'| |].
    + pose proof (relay_frame c0 msg client w) as (Hc & _ & _ & Ht).
      pose proof (relay_cases c0 msg client w) as Hr.
      destruct (relay c0 msg client w) as [[[]|e] w1]; simpl in *.
      * rewrite task_of_set_task. case_decide; [done|].
        unfold task_of. rewrite Ht. by left.
      * intros Hf. apply finish_failed in Hf as [Hf|[[= ->] Hx]]; [| |by rewrite Hc].
        -- left. unfold task_of in *. by rewrite <- Ht.
        -- destruct (link w client); by simplify_eq.
    + rewrite task_of_set_task. case_decide; [done|by left].
    + intros Hf. apply finish_failed in Hf as [Hf|[[= ->] Hx]]; auto.
  - destruct (task_of w c0) eqn:E, how; try by left.
    all: assert (c0 ∈ clients w) as H0 by (apply Hin; by rewrite E).
    all: intros Hf; apply finish_failed in Hf as [Hf|[Hr Hx]]; auto.
    all: simpl in Hr; simplify_eq; auto.
  - by left.
Qed.

(** X2: a [ConnectionClosed] never leaves [handler].  Whatever the
    handlers do and in whatever order, no [handler] call ends with the
    [ConnectionClosed] that its receive or a send to any peer raised (the
    [except] clause of line 23 is around all of them), nor with a
    [KeyError] from the [remove] of line 26. *)
Theorem connection_closed_never_escapes l es c :
  task_of (run order es (init l)) c ≠ Failed ConnectionClosed ∧
  task_of (run order es (init l)) c ≠ Failed KeyError.
Proof.
  assert (∀ es w, consistent w →
            (∀ c x, task_of w c = Failed x → x = RuntimeError ∨ x = CancelledError) →
            ∀ c x, task_of (run order es w) c = Failed x →
                   x = RuntimeError ∨ x = CancelledError) as Hrun.
  { clear. intros es. induction es as [|e es IH]; intros w Hw Hok c x; [apply Hok|].
    rewrite run_cons. apply IH; [by apply step_consistent|].
    intros c' x' Hf. apply step_failed in Hf as [Hf|Hf]; eauto. }
  assert (∀ x, task_of (run order es (init l)) c = Failed x →
               x = RuntimeError ∨ x = CancelledError) as Hx.
  { intros x. apply Hrun; [apply consistent_init|].
    intros c' x'. unfold task_of; simpl. by rewrite lookup_empty. }
  split; intros Hf; by destruct (Hx _ Hf).
Qed.

(** *** Broadcasts on a set that does not change *)

Lemma step_quiet w e :
  in_step w → (∀ d, d ∈ clients w → link w d ≠ Broken) → quiet e = true →
  clients (step order w e) = clients w ∧
  link (step order w e) = link w ∧
  set_calls (step order w e) = set_calls w ∧
  (∀ c, serving (task_of (step order w e) c) = serving (task_of w c)) ∧
  (∀ c, ended (task_of (step order w e) c) = ended (task_of w c)) ∧
  in_step (step order w e).
Proof.
  intros Hin Hno Hq. destruct e as [c0|c0 msg|c0|c0 how|c0 p]; try done; simpl.
  - destruct (task_of w c0) eqn:E; try done.
    split_and!; try done.
    + intros c. rewrite task_of_set_task. case_decide; [by subst; rewrite E|done].
    + intros c. rewrite task_of_set_task. case_decide; [by subst; rewrite E|done].
    + intros c m it. rewrite task_of_set_task. case_decide; [|apply Hin].
      by intros [= _ <-].
  - destruct (task_of w c0) as [| |msg it| |] eqn:E; try done.
    unfold next. rewrite decide_True by (symmetry; by eapply Hin).
    destruct (order (clients w) !! si_pos it) as [client|] eqn:El.
    + assert (link w client ≠ Broken) as Hl.
      { apply Hno, order_elem. by eapply list_elem_of_lookup_2. }
      rewrite relay_cases.
      assert (∀ w1, clients w1 = clients w → tasks w1 = tasks w →
                (∀ c, serving (task_of (set_task c0 (FanOut msg (SetIter (si_used it) (S (si_pos it)))) w1) c)
                      = serving (task_of w c)) ∧
                (∀ c, ended (task_of (set_task c0 (FanOut msg (SetIter (si_used it) (S (si_pos it)))) w1) c)
                      = ended (task_of w c)) ∧
                in_step (set_task c0 (FanOut msg (SetIter (si_used it) (S (si_pos it)))) w1)) as Hgo.
      { intros w1 Hc Ht. split_and!.
        - intros c. rewrite task_of_set_task. case_decide; [by subst; rewrite E|].
          unfold task_of. by rewrite Ht.
        - intros c. rewrite task_of_set_task. case_decide; [by subst; rewrite E|].
          unfold task_of. by rewrite Ht.
        - intros c m it'. rewrite task_of_set_task. simpl. rewrite Hc.
          case_decide.
          + intros [= _ <-]. simpl. by eapply Hin.
          + intros Hf. apply (Hin c m). unfold task_of in *. by rewrite <- Ht. }
      destruct (link w client); [|done|].
      * destruct (Hgo (with_sends (sends w ++ [SendCall client (framed c0 msg client) true]) w))
          as (?&?&?); done.
      * destruct (Hgo w) as (?&?&?); done.
    + split_and!; try done.
      * intros c. rewrite task_of_set_task. case_decide; [by subst; rewrite E|done].
      * intros c. rewrite task_of_set_task. case_decide; [by subst; rewrite E|done].
      * intros c m it'. rewrite task_of_set_task. case_decide; [done|apply Hin].
Qed.

(** X3: broadcasts do not disturb one another.  From a world in which
    every loop in progress is in step with the set and no registered peer
    is broken, any interleaving of arriving messages and loop iterations of
    any number of handlers leaves the set and the history of set calls
    as they were and ends no handler: no loop raises, every handler that
    was serving still is. *)
Theorem broadcasts_do_not_disturb w es :
  in_step w → (∀ d, d ∈ clients w → link w d ≠ Broken) →
  Forall (λ e, quiet e = true) es →
  clients (run order es w) = clients w ∧
  set_calls (run order es w) = set_calls w ∧
  (∀ c, serving (task_of (run order es w) c) = serving (task_of w c)) ∧
  (∀ c, ended (task_of (run order es w) c) = ended (task_of w c)) ∧
  in_step (run order es w).
Proof.
  intros Hin Hno Hq. revert w Hin Hno.
  induction Hq as [|e es He _ IH]; intros w Hin Hno; [done|].
  rewrite run_cons.
  destruct (step_quiet w e Hin Hno He) as (H1 & H2 & H3 & H4 & H5 & H6).
  destruct (IH (step order w e)) as (I1 & I2 & I3 & I4 & I5); [done| |].
  { intros d. rewrite H1, H2. apply Hno. }
  split_and!.
  - by rewrite I1.
  - by rewrite I2.
  - intros c. by rewrite I3.
  - intros c. by rewrite I4.
  - done.
Qed.

(** *** Who is sent to, and when *)

Lemma finish_sends c r w : sends (finish c r w) = sends w.
Proof.
  destruct (decide (c ∈ clients w)) as [Hc|Hc].
  - by rewrite finish_present.
  - by rewrite finish_absent.
Qed.

(** A step sends to members of the set only. *)
Lemma step_targets w e :
  ∃ new, sends (step order w e) = sends w ++ new ∧
         Forall (λ s, target s ∈ clients w) new.
Proof.
  assert (∃ new, sends w = sends w ++ new ∧ Forall (λ s, target s ∈ clients w) new) as Hnil
    by (exists []; by rewrite app_nil_r).
  destruct e as [c0|c0 msg|c0|c0 how|c0 p]; simpl.
  - by destruct (task_of w c0).
  - by destruct (task_of w c0).
  - destruct (task_of w c0) as [| |msg it| |]; try done.
    unfold next. case_decide; [|by rewrite finish_sends].
    destruct (order (clients w) !! si_pos it) as [client|] eqn:El; [|done].
    assert (client ∈ clients w) as Hin
      by (apply order_elem; by eapply list_elem_of_lookup_2).
    rewrite relay_cases. destruct (link w client); rewrite ?finish_sends; simpl.
    + eexists. split; [done|]. by repeat constructor.
    + eexists. split; [done|]. by repeat constructor.
    + done.
  - destruct (task_of w c0), how; rewrite ?finish_sends; done.
  - done.
Qed.

(** A step of one connection leaves the tasks of the others alone. *)
Lemma step_other_task w e c :
  c ≠ actor e → task_of (step order w e) c = task_of w c.
Proof.
  intros Hc.
  assert (∀ r w1, tasks w1 = tasks w → task_of (finish (actor e) r w1) c = task_of w c) as Hfin.
  { intros r w1 Ht. destruct (decide (actor e ∈ clients w1)).
    - rewrite finish_present, task_of_set_task_ne' by done. unfold task_of; simpl. by rewrite Ht.
    - rewrite finish_absent, task_of_set_task_ne' by done. unfold task_of. by rewrite Ht. }
  destruct e as [c0|c0 msg|c0|c0 how|c0 p]; simpl in *.
  - destruct (task_of w c0); try done. by rewrite task_of_set_task_ne'.
  - destruct (task_of w c0); try done. by rewrite task_of_set_task_ne'.
  - destruct (task_of w c0) as [| |msg it| |]; try done.
    destruct (next order (clients w) it) as [client it'| |].
    + pose proof (relay_frame c0 msg client w) as (_ & _ & _ & Ht).
      destruct (relay c0 msg client w) as [[[]|x] w1]; simpl in *.
      * rewrite task_of_set_task_ne' by done. unfold task_of. by rewrite Ht.
      * by apply Hfin.
    + by rewrite task_of_set_task_ne'.
    + by apply Hfin.
  - destruct (task_of w c0), how; try done; by apply Hfin.
  - done.
Qed.

(** A handler that has ended stays as it ended. *)
Lemma step_keeps_ended w e c :
  ended (task_of w c) = true → task_of (step order w e) c = task_of w c.
Proof.
  intros He. destruct (decide (c = actor e)) as [->|Hne]; [|by apply step_other_task].
  destruct e as [c0|c0 msg|c0|c0 how|c0 p]; simpl in *; try done;
    by destruct (task_of w c0) eqn:E; try destruct how.
Qed.

(** A handler that has started is never unstarted. *)
Lemma step_keeps_started w e c :
  task_of w c ≠ NotStarted → task_of (step order w e) c ≠ NotStarted.
Proof.
  intros Hs. destruct (decide (c = actor e)) as [->|Hne];
    [|by rewrite step_other_task].
  assert (∀ r w1, task_of (finish (actor e) r w1) (actor e) ≠ NotStarted) as Hfin.
  { intros r w1 Hf. pose proof (finish_ended (actor e) r w1) as He. by rewrite Hf in He. }
  destruct e as [c0|c0 msg|c0|c0 how|c0 p]; simpl in *; try done.
  - destruct (task_of w c0) eqn:E; try (by rewrite E); by rewrite task_of_set_task_eq.
  - destruct (task_of w c0) eqn:E; try (by rewrite E); by rewrite task_of_set_task_eq.
  - destruct (task_of w c0) as [| |msg it| |] eqn:E; try (by rewrite E).
    destruct (next order (clients w) it) as [client it'| |].
    + destruct (relay c0 msg client w) as [[[]|x] w1]; [by rewrite task_of_set_task_eq|apply Hfin].
    + by rewrite task_of_set_task_eq.
    + apply Hfin.
  - destruct (task_of w c0) eqn:E, how; try (by rewrite E); apply Hfin.
Qed.

Lemma run_after_end c es :
  ∀ w, consistent w → ended (task_of w c) = true →
       attempted c (run order es w) = attempted c w.
Proof.
  induction es as [|e es IH]; intros w Hw He; [done|].
  rewrite run_cons, IH.
  - destruct (step_targets w e) as (new & Hs & Hnew).
    unfold attempted. rewrite Hs, filter_app, fmap_app.
    rewrite (filter_none (λ s, target s = c) new); [by rewrite fmap_nil, app_nil_r|].
    eapply Forall_impl; [exact Hnew|]. simpl. intros s Hin E. subst c.
    apply (cons_members w Hw) in Hin. by destruct (task_of w (target s)).
  - by apply step_consistent.
  - by rewrite step_keeps_ended.
Qed.

Lemma run_sends_started es :
  ∀ w, consistent w →
       Forall (λ s, task_of w (target s) ≠ NotStarted) (sends w) →
       Forall (λ s, task_of (run order es w) (target s) ≠ NotStarted)
              (sends (run order es w)).
Proof.
  induction es as [|e es IH]; intros w Hw Hall; [done|].
  rewrite run_cons. apply IH; [by apply step_consistent|].
  destruct (step_targets w e) as (new & -> & Hnew).
  apply Forall_app. split.
  - eapply Forall_impl; [exact Hall|]. intros s. apply step_keeps_started.
  - eapply Forall_impl; [exact Hnew|]. simpl. intros s Hin.
    apply step_keeps_started. apply (cons_members w Hw) in Hin.
    by destruct (task_of w (target s)).
Qed.

(** X5: a connection is sent to only between the start and the end of
    its own handler.  In every run of the server, no [send] was called for
    a connection whose handler has not started; and once the handler of a
    connection has ended (returned or failed), no later event of any
    handler calls [send] for it again. *)
Theorem sends_only_while_registered l es c :
  (task_of (run order es (init l)) c = NotStarted →
   attempted c (run order es (init l)) = []) ∧
  (ended (task_of (run order es (init l)) c) = true →
   ∀ es', attempted c (run order es' (run order es (init l)))
          = attempted c (run order es (init l))).
Proof.
  split.
  - intros Hc.
    pose proof (run_sends_started es (init l) (consistent_init l)) as Hall.
    unfold attempted. rewrite filter_none; [done|].
    eapply Forall_impl; [apply Hall; by constructor|].
    simpl. intros s Hs E. by subst c.
  - intros He es'. apply run_after_end; [|done].
    apply run_consistent, consistent_init.
Qed.

(** X6: the echo prefix does not tell a connection which messages are
    its own.  With no broken peer registered, what an open registered
    connection [a] receives when another sender relays "You: " followed
    by [m] is exactly what it receives as the echo of its own message [m]. *)
Theorem echo_prefix_can_be_forged a b m w :
  a ≠ b → a ∈ clients w → link w a = Open →
  (∀ d, d ∈ clients w → link w d ≠ Broken) →
  received a (fan_out order b ("You: " +:+ m) w).2 =
  received a (fan_out order a m w).2.
Proof.
  intros Hab Ha La Hno. rewrite !received_fan_out_ok by done.
  rewrite !decide_True by done. unfold framed.
  by rewrite decide_False, decide_True by done.
Qed.

(** *** A loop ends *)

(** Without a new message, a handler that is outside its loop stays outside. *)
Lemma step_stays_out w e c :
  looping (task_of w c) = false → (∀ m, e ≠ Message c m) →
  looping (task_of (step order w e) c) = false.
Proof.
  intros Hout Hm.
  destruct (decide (c = actor e)) as [->|Hne]; [|by rewrite step_other_task].
  assert (∀ r w1, looping (task_of (finish (actor e) r w1) (actor e)) = false) as Hfin.
  { intros r w1. pose proof (finish_ended (actor e) r w1) as He.
    by destruct (task_of (finish (actor e) r w1) (actor e)). }
  destruct e as [c0|c0 msg|c0|c0 how|c0 p]; simpl in *; try done.
  - destruct (task_of w c0) eqn:E; try (by rewrite E); by rewrite task_of_set_task_eq.
  - by destruct (Hm msg).
  - destruct (task_of w c0) eqn:E; try (by rewrite E); done.
  - destruct (task_of w c0) eqn:E, how; try (by rewrite E); apply Hfin.
Qed.

Lemma run_stays_out c es :
  ∀ w, looping (task_of w c) = false → Forall (λ e, ∀ m, e ≠ Message c m) es →
       looping (task_of (run order es w) c) = false.
Proof.
  induction es as [|e es IH]; intros w Hout Hes; [done|].
  apply Forall_cons in Hes as [He Hes].
  rewrite run_cons. apply IH; [|done]. by apply step_stays_out.
Qed.

(** One event on a loop in progress: the loop goes on with what is left
    of its budget, or it is over. *)
Lemma step_loop w e c m it :
  task_of w c = FanOut m it → (∀ m', e ≠ Message c m') →
  looping (task_of (step order w e) c) = false ∨
  ∃ it', task_of (step order w e) c = FanOut m it' ∧
         (si_used it' - si_pos it' + (if decide (e = Iterate c) then 1 else 0)
          ≤ si_used it - si_pos it)%nat.
Proof.
  intros Ht Hm.
  destruct (decide (c = actor e)) as [->|Hne].
  - assert (∀ r w1, looping (task_of (finish (actor e) r w1) (actor e)) = false) as Hfin.
    { intros r w1. pose proof (finish_ended (actor e) r w1) as He.
      by destruct (task_of (finish (actor e) r w1) (actor e)). }
    destruct e as [c0|c0 msg|c0|c0 how|c0 p]; simpl actor in *; simpl step.
    + right. exists it. rewrite Ht, decide_False by done. split; [done|lia].
    + by destruct (Hm msg).
    + rewrite Ht. unfold next. case_decide as Hsz; [|by left].
      destruct (order (clients w) !! si_pos it) as [client|] eqn:El;
        [|left; by rewrite task_of_set_task_eq].
      apply lookup_lt_Some in El. rewrite order_length in El.
      destruct (relay c0 m client w) as [[[]|x] w1]; [|by left].
      right. eexists. rewrite task_of_set_task_eq, decide_True by done.
      split; [done|]. simpl. lia.
    + rewrite Ht. destruct how; [right|right|by left];
        exists it; rewrite Ht, decide_False by done; split; (done || lia).
    + right. exists it. rewrite decide_False by done. split; [|lia].
      unfold task_of in *. done.
  - right. exists it. rewrite step_other_task by done.
    rewrite decide_False by (by intros ->). split; [done|lia].
Qed.

Lemma loop_runs_out c m it es w :
  task_of w c = FanOut m it →
  Forall (λ e, (∀ m', e ≠ Message c m') ∧ (∀ c', e ≠ Accept c')) es →
  si_used it - si_pos it < iterations c es →
  looping (task_of (run order es w) c) = false.
Proof.
  revert w it. induction es as [|e es IH]; intros w it Ht Hes Hn.
  - unfold iterations in Hn. simpl in Hn. lia.
  - apply Forall_cons in Hes as [[He _] Hes]. rewrite run_cons.
    destruct (step_loop w e c m it Ht He) as [Hout|(it' & Ht' & Hle)].
    + apply run_stays_out; [done|].
      eapply Forall_impl; [exact Hes|]. by intros e' [? _].
    + apply (IH _ it'); [done..|].
      unfold iterations in *. rewrite filter_cons in Hn.
      destruct (decide (e = Iterate c)); simpl in Hn; lia.
Qed.

(** X7: a fan-out during which no new connection registers does not run
    on.  From the message that starts the loop of [c] on a set of [n]
    connections, and whatever the other handlers and the peers do in
    between (streams ending, handlers deregistering, peers closing or
    breaking, other loops), the loop is over once it has been given more
    than [n] iterations: one per registered connection, and one more to
    find the end, or fewer when a send or the iterator raises. *)
Theorem fan_out_ends c m es w :
  task_of w c = Receiving →
  Forall (λ e, (∀ m', e ≠ Message c m') ∧ (∀ c', e ≠ Accept c')) es →
  size (clients w) < iterations c es →
  looping (task_of (run order (Message c m :: es) w) c) = false.
Proof.
  intros Ht Hes Hn. rewrite run_cons. simpl step. rewrite Ht.
  apply (loop_runs_out c m (iter (clients w))); [|done|].
  - by rewrite task_of_set_task_eq.
  - simpl. lia.
Qed.

End Proofs.

(** ** The statements at concrete worlds *)

Lemma ascending_perm s : ascending s ≡ₚ elements s.
Proof. apply merge_sort_Permutation. Qed.


(** C1 at [hub123]: sender 1, peer 2 broken, peer 3 enumerated after it. *)
Lemma failed_send_aborts_fan_out_witness :
  (1 ∈ clients hub123 ∧ ascending (clients hub123) = [1] ++ 2 :: [3] ∧
   link hub123 2 = Broken) ∧
  (fan_out ascending 1 "hi" hub123).1 = Raise ConnectionClosed ∧
  (∀ c, c ∈ [3] → attempted c (fan_out ascending 1 "hi" hub123).2 = attempted c hub123) ∧
  task_of (on_message ascending 1 "hi" hub123) 1 = Returned ∧
  (Forall (λ c, link hub123 c ≠ Broken) [1] →
   calls_since hub123 (fan_out ascending 1 "hi" hub123).2 =
     frames 1 "hi" (filter (λ c, link hub123 c = Open) [1])
       ++ [SendCall 2 (framed 1 "hi" 2) false]).
Proof.
  assert (1 ∈ clients hub123) as H1 by (cbn; set_solver).
  assert (ascending (clients hub123) = [1] ++ 2 :: [3]) as H2
    by (vm_compute; reflexivity).
  assert (link hub123 2 = Broken) as H3 by reflexivity.
  split; [done|].
  exact (failed_send_aborts_fan_out ascending ascending_perm 1 "hi" hub123 [1] 2 [3] H1 H2 H3).
Defined.

(** C1 as stated fails at [hub123]: the send to 2 raises, 3 is open and
    enumerated after 2, and no send to 3 is attempted. *)
Lemma broken_peer_starves_later_peers :
  ascending (clients hub123) = [1; 2; 3] ∧
  link hub123 2 = Broken ∧ link hub123 3 = Open ∧
  sends (fan_out ascending 1 "hi" hub123).2 =
    [SendCall 1 "You: hi" true; SendCall 2 "hi" false] ∧
  attempted 3 (fan_out ascending 1 "hi" hub123).2 = [] ∧
  ¬ (∀ c, c ∈ [3] → attempted c (fan_out ascending 1 "hi" hub123).2 ≠ []).
Proof.
  split_and!; try (vm_compute; reflexivity).
  intros H. apply (H 3); [apply list_elem_of_here|]. vm_compute. reflexivity.
Qed.

(** C2 on [three_guests]. *)
Lemma registry_tracks_handlers_witness :
  (∀ s, ascending s ≡ₚ elements s) ∧
  let w := run ascending three_guests (init (λ _, Open)) in
  (∀ c, c ∈ clients w ↔ Add c ∈ set_calls w ∧ Remove c ∉ set_calls w) ∧
  NoDup (ascending (clients w)) ∧
  (∀ c, times (Remove c) (set_calls w) = if ended (task_of w c) then 1 else 0) ∧
  (∀ c, (times (Add c) (set_calls w) ≤ 1)%nat) ∧
  (∀ c, task_of w c ≠ Failed KeyError).
Proof.
  split; [exact ascending_perm|].
  exact (registry_tracks_handlers ascending ascending_perm (λ _, Open) three_guests).
Defined.



(** C4 at two worlds: [hub_open], where the loop of 1 runs alone, and
    [mid_fan_out], where 3 left the set while the loop of 1 was suspended. *)
Lemma fan_out_reads_live_set_witness :
  (task_of hub_open 1 = Receiving ∧ size (clients hub_open) < 4 ∧
   task_of mid_fan_out 1 = FanOut "hi" (SetIter 3 1) ∧ 1 ∈ clients mid_fan_out ∧
   size (clients mid_fan_out) ≠ 3) ∧
  run ascending (Message 1 "hi" :: replicate 4 (Iterate 1)) hub_open
    = on_message ascending 1 "hi" hub_open ∧
  task_of (step ascending mid_fan_out (Iterate 1)) 1 = Failed RuntimeError ∧
  sends (step ascending mid_fan_out (Iterate 1)) = sends mid_fan_out ∧
  clients (step ascending mid_fan_out (Iterate 1)) = clients mid_fan_out ∖ {[1]}.
Proof.
  assert (task_of hub_open 1 = Receiving) as H1 by reflexivity.
  assert (size (clients hub_open) < 4) as H2 by (vm_compute; lia).
  assert (task_of mid_fan_out 1 = FanOut "hi" (SetIter 3 1)) as H3
    by (vm_compute; reflexivity).
  assert (1 ∈ clients mid_fan_out) as H4
    by (apply (bool_decide_unpack _); vm_compute; exact I).
  assert (size (clients mid_fan_out) ≠ 3) as H5 by (vm_compute; lia).
  split; [done|]. split.
  - exact (proj1 (fan_out_reads_live_set ascending ascending_perm 1 "hi" hub_open) H1 4 H2).
  - exact (proj1 (proj2 (fan_out_reads_live_set ascending ascending_perm 1 "hi" mid_fan_out))
             (SetIter 3 1) H3 H4 H5).
Defined.

(** C4 as stated fails on [disconnect_during_fan_out]: 2 is registered
    and open when the fan-out of "hi" begins, the stream of 3 ends while
    the loop is suspended, and the next iteration raises [RuntimeError]
    inside the fan-out; 2 never receives "hi", and the handler of 1 fails. *)
Lemma deregistration_breaks_running_fan_out :
  ascending (clients (run ascending (take 4 disconnect_during_fan_out) (init (λ _, Open))))
    = [1; 2; 3] ∧
  task_of mid_fan_out 1 = FanOut "hi" (SetIter 3 1) ∧
  ascending (clients mid_fan_out) = [1; 2] ∧
  link mid_fan_out 2 = Open ∧
  task_of (run ascending disconnect_during_fan_out (init (λ _, Open))) 1
    = Failed RuntimeError ∧
  sends (run ascending disconnect_during_fan_out (init (λ _, Open)))
    = [SendCall 1 "You: hi" true] ∧
  received 2 (run ascending disconnect_during_fan_out (init (λ _, Open))) = [] ∧
  ascending (clients (run ascending disconnect_during_fan_out (init (λ _, Open)))) = [2].
Proof. split_and!; vm_compute; reflexivity. Qed.

(** C5 at [hub123] and connection 4, which is not registered. *)
Lemma remove_absent_raises_witness :
  (4 ∉ clients hub123) ∧
  clients_remove 4 hub123 = (Raise KeyError, hub123) ∧
  clients (clients_remove 4 hub123).2 = clients hub123 ∧
  size (clients (clients_remove 4 hub123).2) = size (clients hub123).
Proof.
  assert (4 ∉ clients hub123) as H by (cbn; set_solver).
  split; [done|]. exact (remove_absent_raises 4 hub123 H).
Defined.

(** C5 as stated fails at [hub123]: removing the unregistered connection 4
    raises [KeyError], and a handler that reached [finally] for it would
    fail with that error. *)
Lemma remove_absent_is_an_error :
  (4 ∉ clients hub123) ∧
  (clients_remove 4 hub123).1 = Raise KeyError ∧
  (clients_remove 4 hub123).1 ≠ Ok () ∧
  task_of (finish 4 None hub123) 4 = Failed KeyError.
Proof.
  split_and!; [cbn; set_solver|vm_compute; reflexivity|vm_compute; discriminate|
               vm_compute; reflexivity].
Qed.

(** C6 at [hub123] and connection 1, which is registered. *)
Lemma add_present_is_silent_witness :
  1 ∈ clients hub123 ∧
  (clients_add 1 hub123).1 = Ok () ∧
  clients (clients_add 1 hub123).2 = clients hub123 ∧
  size (clients (clients_add 1 hub123).2) = size (clients hub123).
Proof.
  assert (1 ∈ clients hub123) as H by (cbn; set_solver).
  split; [done|]. exact (add_present_is_silent 1 hub123 H).
Defined.

(** C6 as stated fails at [hub123]: adding the registered connection 1
    again raises nothing. *)
Lemma add_present_raises_nothing :
  1 ∈ clients hub123 ∧
  (clients_add 1 hub123).1 = Ok () ∧
  (∀ e, (clients_add 1 hub123).1 ≠ Raise e) ∧
  ascending (clients (clients_add 1 hub123).2) = [1; 2; 3].
Proof.
  split_and!; [cbn; set_solver|reflexivity|done|vm_compute; reflexivity].
Qed.



(** The fan-out at [hub_closed], evaluated: it completes, 1 and 3 are
    served, 2 is passed over. *)
Example skip_hub_closed :
  fan_out ascending 1 "hi" hub_closed =
    (Ok (), with_sends [SendCall 1 "You: hi" true; SendCall 3 "hi" true] hub_closed).
Proof. vm_compute. reflexivity. Qed.

(** C8 at [hub123], where the fan-out ends by an exception. *)
Example registry_after_raising_fan_out :
  (fan_out ascending 1 "hi" hub123).1 = Raise ConnectionClosed ∧
  clients (fan_out ascending 1 "hi" hub123).2 = clients hub123 ∧
  set_calls (fan_out ascending 1 "hi" hub123).2 = [].
Proof. split_and!; vm_compute; reflexivity. Qed.



(** The empty message at [hub_open], evaluated. *)
Example empty_message_hub_open :
  sends (fan_out ascending 1 "" hub_open).2 =
    [SendCall 1 "You: " true; SendCall 2 "" true; SendCall 3 "" true].
Proof. vm_compute. reflexivity. Qed.

(** C10 at [hub123]: sender 1 is open, peer 2 is broken. *)
Lemma failed_send_ends_sender_witness :
  (1 ∈ clients hub123 ∧ 2 ∈ clients hub123 ∧ link hub123 2 = Broken ∧
   link hub123 1 = Open) ∧
  (fan_out ascending 1 "hi" hub123).1 = Raise ConnectionClosed ∧
  task_of (on_message ascending 1 "hi" hub123) 1 = Returned ∧
  (1 ∉ clients (on_message ascending 1 "hi" hub123)) ∧
  clients (on_message ascending 1 "hi" hub123) = clients hub123 ∖ {[1]} ∧
  set_calls (on_message ascending 1 "hi" hub123) = set_calls hub123 ++ [Remove 1] ∧
  link (on_message ascending 1 "hi" hub123) 1 = link hub123 1.
Proof.
  assert (1 ∈ clients hub123) as H1 by (cbn; set_solver).
  assert (2 ∈ clients hub123) as H2 by (cbn; set_solver).
  assert (link hub123 2 = Broken) as H3 by reflexivity.
  split; [done|].
  exact (failed_send_ends_sender ascending ascending_perm 1 2 "hi" hub123 H1 H2 H3).
Defined.

(** The scenario of the three guests, message by message: 1, 2 and 3
    connect, 1 sends "hi", 2 leaves, 1 sends "bye". *)
Example hi_then_bye :
  let w := run ascending
             ([Accept 1; Accept 2; Accept 3; Message 1 "hi"] ++ replicate 4 (Iterate 1)
              ++ [EndStream 2 Graceful; Message 1 "bye"] ++ replicate 3 (Iterate 1))
             (init (λ _, Open)) in
  received 1 w = ["You: hi"; "You: bye"] ∧ received 2 w = ["hi"] ∧
  received 3 w = ["hi"; "bye"] ∧ task_of w 1 = Receiving ∧
  ascending (clients w) = [1; 3].
Proof. vm_compute. done. Qed.

(** The refinement at the empty server: connection 1 arrives, says "hi"
    and "bye" to itself and leaves. *)
Lemma handler_alone_witness :
  (task_of (init (λ _, Open)) 1 = NotStarted ∧
   S (size (clients (init (λ _, Open)))) < 2) ∧
  run ascending (handler_events 1 2 ["hi"; "bye"] Graceful) (init (λ _, Open)) =
    match handler ascending 1 ["hi"; "bye"] Graceful (init (λ _, Open)) with
    | (Ok _, w') => set_task 1 Returned w'
    | (Raise e, w') => set_task 1 (Failed e) w'
    end.
Proof.
  assert (task_of (init (λ _, Open)) 1 = NotStarted) as H1 by reflexivity.
  assert (S (size (clients (init (λ _, Open)))) < 2) as H2 by (vm_compute; lia).
  split; [done|].
  exact (handler_alone ascending ascending_perm 1 2 ["hi"; "bye"] Graceful _ H1 H2).
Defined.

(** A lone guest, evaluated. *)
Example lone_guest :
  (handler ascending 1 ["hi"; "bye"] Graceful (init (λ _, Open))).1 = Ok () ∧
  sends (handler ascending 1 ["hi"; "bye"] Graceful (init (λ _, Open))).2
    = [SendCall 1 "You: hi" true; SendCall 1 "You: bye" true] ∧
  set_calls (handler ascending 1 ["hi"; "bye"] Graceful (init (λ _, Open))).2
    = [Add 1; Remove 1].
Proof. split_and!; vm_compute; reflexivity. Qed.

(** X1 at [hub23]: connection 1 joins 2 and 3, says "hi" and "bye", and
    leaves. *)
Lemma handler_delivers_in_order_witness :
  (∀ d, d ∈ {[1]} ∪ clients hub23 → link hub23 d ≠ Broken) ∧
  (handler ascending 1 ["hi"; "bye"] Graceful hub23).1 = Ok () ∧
  (∀ c, received c (handler ascending 1 ["hi"; "bye"] Graceful hub23).2 =
        received c hub23 ++
        if decide (c ∈ {[1]} ∪ clients hub23 ∧ link hub23 c = Open)
        then (λ m, framed 1 m c) <$> ["hi"; "bye"] else []) ∧
  clients (handler ascending 1 ["hi"; "bye"] Graceful hub23).2 = clients hub23 ∖ {[1]}.
Proof.
  assert (∀ d, d ∈ {[1]} ∪ clients hub23 → link hub23 d ≠ Broken) as H by done.
  split; [done|].
  exact (handler_delivers_in_order ascending ascending_perm 1 ["hi"; "bye"] Graceful hub23 H).
Defined.

(** The same conversation, evaluated. *)
Example conversation_hub23 :
  sends (handler ascending 1 ["hi"; "bye"] Graceful hub23).2 =
    [SendCall 1 "You: hi" true; SendCall 2 "hi" true; SendCall 3 "hi" true;
     SendCall 1 "You: bye" true; SendCall 2 "bye" true; SendCall 3 "bye" true].
Proof. vm_compute. reflexivity. Qed.

(** X2 at work: the receive of 1 ends abruptly, and a send of 1 to the
    broken peer 2 raises; both handlers return. *)
Example connection_closed_is_caught :
  task_of (run ascending [Accept 1; EndStream 1 Abrupt] (init (λ _, Open))) 1 = Returned ∧
  task_of (run ascending [Message 1 "hi"; Iterate 1; Iterate 1] hub123) 1 = Returned ∧
  attempted 2 (run ascending [Message 1 "hi"; Iterate 1; Iterate 1] hub123)
    = ["hi"] ∧
  received 2 (run ascending [Message 1 "hi"; Iterate 1; Iterate 1] hub123) = [].
Proof. split_and!; vm_compute; reflexivity. Qed.

(** An abrupt end and a failed send, evaluated: both handlers return. *)
Example closed_connections_are_swallowed :
  task_of (run ascending guest_two_gone (init (λ _, Open))) 2 = Returned ∧
  task_of (on_message ascending 1 "hi" hub123) 1 = Returned.
Proof. split; vm_compute; reflexivity. Qed.

Lemma in_step_serving_all w l : tasks w = serving_all l → in_step w.
Proof.
  intros Ht c m it. unfold task_of. rewrite Ht. clear Ht.
  induction l as [|x l IH]; simpl.
  - unfold serving_all; simpl. by rewrite lookup_empty.
  - unfold serving_all in *. rewrite fmap_cons. simpl.
    rewrite lookup_insert. by case_decide.
Qed.

(** X3 at [hub_open], with the loops of 1 and 2 taking turns. *)
Lemma broadcasts_do_not_disturb_witness :
  (in_step hub_open ∧ (∀ d, d ∈ clients hub_open → link hub_open d ≠ Broken) ∧
   Forall (λ e, quiet e = true) two_speakers) ∧
  clients (run ascending two_speakers hub_open) = clients hub_open ∧
  set_calls (run ascending two_speakers hub_open) = set_calls hub_open ∧
  (∀ c, serving (task_of (run ascending two_speakers hub_open) c)
        = serving (task_of hub_open c)) ∧
  (∀ c, ended (task_of (run ascending two_speakers hub_open) c)
        = ended (task_of hub_open c)) ∧
  in_step (run ascending two_speakers hub_open).
Proof.
  assert (in_step hub_open) as H1 by by apply (in_step_serving_all _ [1; 2; 3]).
  assert (∀ d, d ∈ clients hub_open → link hub_open d ≠ Broken) as H2 by done.
  assert (Forall (λ e, quiet e = true) two_speakers) as H3 by by repeat constructor.
  split; [done|].
  exact (broadcasts_do_not_disturb ascending ascending_perm hub_open two_speakers H1 H2 H3).
Defined.

(** The two broadcasts, evaluated: everybody got both messages. *)
Example two_speakers_hub_open :
  received 1 (run ascending two_speakers hub_open) = ["You: a"; "b"] ∧
  received 2 (run ascending two_speakers hub_open) = ["a"; "You: b"] ∧
  received 3 (run ascending two_speakers hub_open) = ["a"; "b"] ∧
  task_of (run ascending two_speakers hub_open) 1 = Receiving ∧
  task_of (run ascending two_speakers hub_open) 2 = Receiving.
Proof. split_and!; vm_compute; reflexivity. Qed.

(** X5 on [guest_two_gone]: connection 2 has left, 4 never arrived, and
    the events of [bye_after] send nothing to 2. *)
Lemma sends_only_while_registered_witness :
  (task_of (run ascending guest_two_gone (init (λ _, Open))) 4 = NotStarted ∧
   ended (task_of (run ascending guest_two_gone (init (λ _, Open))) 2) = true) ∧
  attempted 4 (run ascending guest_two_gone (init (λ _, Open))) = [] ∧
  attempted 2 (run ascending bye_after (run ascending guest_two_gone (init (λ _, Open))))
    = attempted 2 (run ascending guest_two_gone (init (λ _, Open))).
Proof.
  assert (task_of (run ascending guest_two_gone (init (λ _, Open))) 4 = NotStarted) as H1
    by (vm_compute; reflexivity).
  assert (ended (task_of (run ascending guest_two_gone (init (λ _, Open))) 2) = true) as H2
    by (vm_compute; reflexivity).
  split; [done|]. split.
  - exact (proj1 (sends_only_while_registered ascending ascending_perm
                    (λ _, Open) guest_two_gone 4) H1).
  - exact (proj2 (sends_only_while_registered ascending ascending_perm
                    (λ _, Open) guest_two_gone 2) H2 bye_after).
Defined.

(** The same run, evaluated: 2 got "hi" while it was there, and only 1
    and 3 get "bye". *)
Example bye_after_guest_two_gone :
  sends (run ascending (guest_two_gone ++ bye_after) (init (λ _, Open))) =
    [SendCall 1 "You: hi" true; SendCall 2 "hi" true;
     SendCall 1 "You: bye" true; SendCall 3 "bye" true].
Proof. vm_compute. reflexivity. Qed.

(** X6 at [hub_open]: 2 relays "You: hi", or 1 says "hi" itself. *)
Lemma echo_prefix_can_be_forged_witness :
  (1 ≠ 2 ∧ 1 ∈ clients hub_open ∧ link hub_open 1 = Open ∧
   ∀ d, d ∈ clients hub_open → link hub_open d ≠ Broken) ∧
  received 1 (fan_out ascending 2 ("You: " +:+ "hi") hub_open).2 =
  received 1 (fan_out ascending 1 "hi" hub_open).2.
Proof.
  assert (1 ≠ 2) as H1 by done.
  assert (1 ∈ clients hub_open) as H2 by (cbn; set_solver).
  assert (link hub_open 1 = Open) as H3 by reflexivity.
  assert (∀ d, d ∈ clients hub_open → link hub_open d ≠ Broken) as H4 by done.
  split; [done|].
  exact (echo_prefix_can_be_forged ascending ascending_perm 1 2 "hi" hub_open H1 H2 H3 H4).
Defined.

(** X7 at [hub_open]: the loop of 1 on three connections; the stream of
    3 ends after the first iteration, and the loop of 1 is over at the
    next one. *)
Lemma fan_out_ends_witness :
  (task_of hub_open 1 = Receiving ∧
   Forall (λ e, (∀ m', e ≠ Message 1 m') ∧ (∀ c', e ≠ Accept c'))
     [Iterate 1; EndStream 3 Graceful; Iterate 1; Message 2 "yo"; Iterate 1; Iterate 1] ∧
   size (clients hub_open)
     < iterations 1 [Iterate 1; EndStream 3 Graceful; Iterate 1; Message 2 "yo";
                     Iterate 1; Iterate 1]) ∧
  looping (task_of (run ascending
     (Message 1 "hi" :: [Iterate 1; EndStream 3 Graceful; Iterate 1; Message 2 "yo";
                         Iterate 1; Iterate 1]) hub_open) 1) = false.
Proof.
  assert (task_of hub_open 1 = Receiving) as H1 by (vm_compute; reflexivity).
  assert (Forall (λ e, (∀ m', e ≠ Message 1 m') ∧ (∀ c', e ≠ Accept c'))
     [Iterate 1; EndStream 3 Graceful; Iterate 1; Message 2 "yo"; Iterate 1; Iterate 1])
    as H2 by (repeat (constructor; [split; intros; discriminate|]); constructor).
  assert (size (clients hub_open)
          < iterations 1 [Iterate 1; EndStream 3 Graceful; Iterate 1; Message 2 "yo";
                          Iterate 1; Iterate 1]) as H3
    by (vm_compute; lia).
  split; [done|].
  exact (fan_out_ends ascending ascending_perm 1 "hi" _ hub_open H1 H2 H3).
Defined.
